(** * The dependency walker of the getter: [download], [downloadPackage], [Get]

    A shallow embedding of [getter/get/get_get.go] (the import graph walker
    [download] and the download orchestrator [downloadPackage]) and of the
    file that declares [Getter], [New] and [Get] (the hint pass
    [processPath]).

    Go code is stateful: the Getter's maps, the import stack and the session
    filesystem are threaded through a small state monad [M].  A Go [panic]
    and the exhaustion of the recursion budget are results of their own.
    The package loader, the vendoring resolver, the repository backend, the
    filesystem and [path/filepath] are interfaces of the program; they are
    the fields of the class [Collab]. *)

From stdpp Require Import base strings list gmap.
From Stdlib Require Import Lia.


(** ** Data model *)

(** Modelled from the spec: the type [ImportStack] (declared outside the two
    source files): an ordered sequence of import paths; [Push] appends,
    [Pop] drops the last entry, [Copy] is a fresh copy. *)
Definition ImportStack := list string.

(** [PackageError]; the field [ImportStack] of the Go struct is [ErrStack]
    here, the name [ImportStack] being the type. *)
Record PackageError := {
  ErrStack : list string;
  Err : string;
  Hard : bool
}.

Module build.

(** The fields of go/build's [Package] that the walker reads and writes. *)
Record Package := {
  Root : string;
  SrcRoot : string;
  PkgRoot : string;
  Imports : list string
}.

End build.

Record PackageInternal := { Build : build.Package }.

Record Package := {
  ImportPath : string;
  Dir : string;
  Standard : bool;
  Imports : list string;
  Error : option PackageError;
  Internal : PackageInternal
}.

(** [repoRoot]; [exists_] is the Go field [exists]. *)
Record repoRoot := {
  repo : string;
  root : string;
  dir : string;
  exists_ : bool
}.

(** The errors [downloadPackage] returns, one constructor per [return] of an
    error; [errText] is the text [err.Error()] gives. *)
Inductive fetchError :=
| ErrBackend (msg : string)
| ErrInsecure (repo : string)
| ErrNoGopath
| ErrGopathIsGoroot
| ErrGorootAsGopath (first : string)
| ErrPathDisagreement (calculated expected : string)
| ErrExistsNoRepo (dir : string).

Definition errText (e : fetchError) : string :=
  match e with
  | ErrBackend msg => msg
  | ErrInsecure r => "cannot download, " +:+ r +:+ " uses insecure protocol"
  | ErrNoGopath =>
      "cannot download, $GOPATH not set. For more details see: 'go help gopath'"
  | ErrGopathIsGoroot =>
      "cannot download, $GOPATH must not be set to $GOROOT. For more details see: 'go help gopath'"
  | ErrGorootAsGopath d =>
      "cannot download, " +:+ d +:+
      " is a GOROOT, not a GOPATH. For more details see: 'go help gopath'"
  | ErrPathDisagreement c e =>
      "path disagreement, calculated " +:+ c +:+ ", expected " +:+ e
  | ErrExistsNoRepo d => d +:+ " exists but repo does not"
  end.

(** What the program does to its collaborators, in the order it does it.
    [EvWalk], [EvFetch] and [EvProcess] are ghost marks at the entry of
    [download], [downloadPackage] and [processPath]. *)
Inductive Event :=
| EvWalk (path : string)
| EvFetch (importPath : string)
| EvMkdirAll (dir : string)
| EvSend (message : string)
| EvCreate (dir : string)
| EvUpdate (dir : string)
| EvProcess (path : string)
| EvSetHints (hints : gmap string (list string)).

Fixpoint countEv (f : Event -> bool) (l : list Event) : nat :=
  match l with
  | [] => 0
  | e :: l' => (if f e then 1 else 0) + countEv f l'
  end.

Definition isCreate (d : string) (e : Event) : bool :=
  match e with EvCreate d' => bool_decide (d' = d) | _ => false end.

Definition isMutation (e : Event) : bool :=
  match e with
  | EvMkdirAll _ | EvCreate _ | EvUpdate _ => true
  | _ => false
  end.

Definition isBackend (e : Event) : bool :=
  match e with
  | EvMkdirAll _ | EvSend _ | EvCreate _ => true
  | _ => false
  end.

Definition isUpdate (e : Event) : bool :=
  match e with EvUpdate _ => true | _ => false end.

Definition isWalk (e : Event) : bool :=
  match e with EvWalk _ => true | _ => false end.

Definition isFetch (e : Event) : bool :=
  match e with EvFetch _ => true | _ => false end.

Definition isProcess (path : string) (e : Event) : bool :=
  match e with EvProcess p => bool_decide (p = path) | _ => false end.

(** The result of a Go call: it returns, it panics, or the recursion budget
    of the model is used up. *)
Inductive Res (A : Type) :=
| Ret (a : A)
| Panic (msg : string)
| OutOfFuel.
Arguments Ret {A} a.
Arguments Panic {A} msg.
Arguments OutOfFuel {A}.

Definition nilDeref : string :=
  "invalid memory address or nil pointer dereference".
Definition sliceBounds : string := "slice bounds out of range".

(** What the loader hands back: the package, the package cache and the
    import stack as it leaves them, and its private state. *)
Record LoadResult (Ext : Type) := {
  lrPackage : Package;
  lrCache : gmap string Package;
  lrStack : ImportStack;
  lrExt : Ext
}.
Arguments lrPackage {Ext} _.
Arguments lrCache {Ext} _.
Arguments lrStack {Ext} _.
Arguments lrExt {Ext} _.

(** ** The collaborators

    [FS] is the session filesystem ([g.session.GoPath()]); [Ext] is the
    state private to the collaborators (remote hosts, the coalesced fetch
    cache, the loader's tables).  A Go pair [(root, err)] is a pair of
    options, an [error] of a collaborator is its text.  [FindVendor]
    answers [Some j] for [(j, true)]; [Stat] answers [true] when its error
    is nil; [create] and [rootDownload] are the methods [root.create] and
    [root.download]; the last five fields are [path/filepath]. *)
Class Collab (FS Ext : Type) := {
  LoadImport : FS -> Ext -> gmap string Package -> ImportStack ->
               string -> string -> option Package -> bool -> LoadResult Ext;
  ClearPackageCachePartial : gmap string Package -> list string ->
                             gmap string Package;
  FindVendor : string -> option nat;
  VendoredImportPath : Package -> string -> string;
  vcsFromDir : FS -> string -> string -> option repoRoot * option string;
  repoRootForImportPath : Ext -> string -> bool ->
                          (option repoRoot * option string) * Ext;
  isSecure : string -> bool;
  Stat : FS -> string -> bool;
  MkdirAll : FS -> string -> option string * FS;
  create : FS -> Ext -> repoRoot -> option string * FS * Ext;
  rootDownload : FS -> Ext -> repoRoot -> option string * FS * Ext;
  SplitList : string -> list string;
  Clean : string -> string;
  Join : string -> string -> string;
  FromSlash : string -> string;
  Split : string -> string * string
}.

(** ** The machine state

    The maps and settings of the [Getter], the session filesystem, and the
    two variables local to a run of [Get] that its closures share: the
    import stack [stk] and the map [hints].  [trace] is the list of events,
    oldest first. *)
Record State (FS Ext : Type) := {
  packageCache : gmap string Package;
  downloadCache : gmap string bool;
  downloadRootCache : gmap string repoRoot;
  repoPackages : gmap string repoRoot;
  GOPATH : string;
  GOROOT : string;
  send : bool;
  fs : FS;
  ext : Ext;
  stk : ImportStack;
  hints : gmap string (list string);
  trace : list Event
}.
Arguments packageCache {FS Ext} _.
Arguments downloadCache {FS Ext} _.
Arguments downloadRootCache {FS Ext} _.
Arguments repoPackages {FS Ext} _.
Arguments GOPATH {FS Ext} _.
Arguments GOROOT {FS Ext} _.
Arguments send {FS Ext} _.
Arguments fs {FS Ext} _.
Arguments ext {FS Ext} _.
Arguments stk {FS Ext} _.
Arguments hints {FS Ext} _.
Arguments trace {FS Ext} _.

Section Monad.
Context {FS Ext : Type}.
Local Abbreviation State := (State FS Ext).

Definition set_packageCache (v : gmap string Package) (s : State) : State :=
  {| packageCache := v; downloadCache := downloadCache s;
     downloadRootCache := downloadRootCache s; repoPackages := repoPackages s;
     GOPATH := GOPATH s; GOROOT := GOROOT s; send := send s; fs := fs s;
     ext := ext s; stk := stk s; hints := hints s; trace := trace s |}.

Definition set_downloadCache (v : gmap string bool) (s : State) : State :=
  {| packageCache := packageCache s; downloadCache := v;
     downloadRootCache := downloadRootCache s; repoPackages := repoPackages s;
     GOPATH := GOPATH s; GOROOT := GOROOT s; send := send s; fs := fs s;
     ext := ext s; stk := stk s; hints := hints s; trace := trace s |}.

Definition set_downloadRootCache (v : gmap string repoRoot) (s : State)
  : State :=
  {| packageCache := packageCache s; downloadCache := downloadCache s;
     downloadRootCache := v; repoPackages := repoPackages s;
     GOPATH := GOPATH s; GOROOT := GOROOT s; send := send s; fs := fs s;
     ext := ext s; stk := stk s; hints := hints s; trace := trace s |}.

Definition set_repoPackages (v : gmap string repoRoot) (s : State) : State :=
  {| packageCache := packageCache s; downloadCache := downloadCache s;
     downloadRootCache := downloadRootCache s; repoPackages := v;
     GOPATH := GOPATH s; GOROOT := GOROOT s; send := send s; fs := fs s;
     ext := ext s; stk := stk s; hints := hints s; trace := trace s |}.

Definition set_fs (v : FS) (s : State) : State :=
  {| packageCache := packageCache s; downloadCache := downloadCache s;
     downloadRootCache := downloadRootCache s; repoPackages := repoPackages s;
     GOPATH := GOPATH s; GOROOT := GOROOT s; send := send s; fs := v;
     ext := ext s; stk := stk s; hints := hints s; trace := trace s |}.

Definition set_ext (v : Ext) (s : State) : State :=
  {| packageCache := packageCache s; downloadCache := downloadCache s;
     downloadRootCache := downloadRootCache s; repoPackages := repoPackages s;
     GOPATH := GOPATH s; GOROOT := GOROOT s; send := send s; fs := fs s;
     ext := v; stk := stk s; hints := hints s; trace := trace s |}.

Definition set_stk (v : ImportStack) (s : State) : State :=
  {| packageCache := packageCache s; downloadCache := downloadCache s;
     downloadRootCache := downloadRootCache s; repoPackages := repoPackages s;
     GOPATH := GOPATH s; GOROOT := GOROOT s; send := send s; fs := fs s;
     ext := ext s; stk := v; hints := hints s; trace := trace s |}.

Definition set_hints (v : gmap string (list string)) (s : State) : State :=
  {| packageCache := packageCache s; downloadCache := downloadCache s;
     downloadRootCache := downloadRootCache s; repoPackages := repoPackages s;
     GOPATH := GOPATH s; GOROOT := GOROOT s; send := send s; fs := fs s;
     ext := ext s; stk := stk s; hints := v; trace := trace s |}.

Definition set_trace (v : list Event) (s : State) : State :=
  {| packageCache := packageCache s; downloadCache := downloadCache s;
     downloadRootCache := downloadRootCache s; repoPackages := repoPackages s;
     GOPATH := GOPATH s; GOROOT := GOROOT s; send := send s; fs := fs s;
     ext := ext s; stk := stk s; hints := hints s; trace := v |}.

(** ** The monad of Go calls *)
Definition M (A : Type) : Type := State -> Res A * State.

Definition ret {A} (a : A) : M A := fun s => (Ret a, s).

Definition bind {A B} (c : M A) (k : A -> M B) : M B :=
  fun s =>
    match c s with
    | (Ret a, s') => k a s'
    | (Panic msg, s') => (Panic msg, s')
    | (OutOfFuel, s') => (OutOfFuel, s')
    end.

Definition panic {A} (msg : string) : M A := fun s => (Panic msg, s).
Definition outOfFuel {A} : M A := fun s => (OutOfFuel, s).
Definition get : M State := fun s => (Ret s, s).
Definition modify (f : State -> State) : M unit := fun s => (Ret tt, f s).
Definition when (b : bool) (c : M unit) : M unit := if b then c else ret tt.

Definition record (e : Event) (s : State) : State :=
  set_trace (trace s ++ [e]) s.

Definition log (e : Event) : M unit := modify (record e).

(** [stk.Push], [stk.Pop] and [stk.Copy].  [Pop] reslices to [len-1], which
    panics on an empty stack. *)
Definition Push (p : string) : M unit :=
  modify (fun s => set_stk (stk s ++ [p]) s).

Definition Pop : M unit :=
  fun s =>
    match stk s with
    | [] => (Panic sliceBounds, s)
    | _ :: _ => (Ret tt, set_stk (removelast (stk s)) s)
    end.

Definition Copy : M (list string) := fun s => (Ret (stk s), s).

End Monad.

Notation "'do' x <- c ; k" := (bind c (fun x => k))
  (at level 10, x name, c at level 100, k at level 200).

Section Program.
Context {FS Ext : Type} {K : Collab FS Ext}.
Local Abbreviation State := (State FS Ext).
Local Abbreviation M := (M (FS:=FS) (Ext:=Ext)).

(** ** The download orchestrator: [downloadPackage]

    [p] is a pointer in Go, and the package it points to may be the one
    that [packageCache] holds.  The three writes to [p.Internal.Build]
    (lines 174-176) are kept here in the local copy [p'], which is all the
    rest of the function reads; the entry of [packageCache] is not updated.
    What is proved of [packageCache] is therefore proved of the map from
    paths to packages as the loader and [ClearPackageCachePartial] leave
    it, not of the fields [Root], [SrcRoot] and [PkgRoot] of a package that
    [downloadPackage] has placed in $GOPATH. *)

(** Lines 143-156: the repository root from the checkout on disk or from
    the import path. *)
Definition resolveRoot (p : Package) (insecure : bool)
  : M (option repoRoot * option string) :=
  do s <- get;
  if bool_decide (build.SrcRoot (Build (Internal p)) <> "")
  then ret (vcsFromDir (fs s) (Dir p) (build.SrcRoot (Build (Internal p))))
  else
    let '(r, e) := repoRootForImportPath (ext s) (ImportPath p) insecure in
    do _ <- modify (set_ext e);
    ret r.

(** Lines 161-177: the package that was not found goes into the first
    directory of $GOPATH. *)
Definition placeInGopath (p : Package) : M (fetchError + Package) :=
  if bool_decide (build.SrcRoot (Build (Internal p)) = "")
  then
    do s <- get;
    match SplitList (GOPATH s) with
    | [] => ret (inl ErrNoGopath)
    | first :: _ =>
        if bool_decide (Clean first = Clean (GOROOT s))
        then ret (inl ErrGopathIsGoroot)
        else if Stat (fs s) (Join first "src/cmd/go/alldocs.go")
        then ret (inl (ErrGorootAsGopath first))
        else ret (inr
          {| ImportPath := ImportPath p; Dir := Dir p;
             Standard := Standard p; Imports := Imports p;
             Error := Error p;
             Internal :=
               {| Build :=
                    {| build.Root := first;
                       build.SrcRoot := Join first "src";
                       build.PkgRoot := Join first "pkg";
                       build.Imports :=
                         build.Imports (Build (Internal p)) |} |} |})
    end
  else ret (inr p).

Definition set_dir (d : string) (r : repoRoot) : repoRoot :=
  {| repo := repo r; root := root r; dir := d; exists_ := exists_ r |}.

(** Lines 193-226: check out a new copy, or update the existing one. *)
Definition checkoutOrUpdate (r : repoRoot) : M (option fetchError) :=
  if negb (exists_ r) then
    do s <- get;
    if Stat (fs s) (dir r) then ret (Some (ErrExistsNoRepo (dir r)))
    else
      let parent := fst (Split (dir r)) in
      do _ <- log (EvMkdirAll parent);
      let '(err, fs') := MkdirAll (fs s) parent in
      do _ <- modify (set_fs fs');
      match err with
      | Some msg => ret (Some (ErrBackend msg))
      | None =>
          do _ <- when (send s) (log (EvSend (root r)));
          do _ <- log (EvCreate (dir r));
          do s1 <- get;
          let '(err, fs'', ext'') := create (fs s1) (ext s1) r in
          do _ <- modify (fun s => set_ext ext'' (set_fs fs'' s));
          match err with
          | Some msg => ret (Some (ErrBackend msg))
          | None => ret None
          end
      end
  else
    do _ <- panic (A:=unit) "root exists";
    do s <- get;
    do _ <- when (send s) (log (EvSend (root r)));
    do _ <- log (EvUpdate (dir r));
    let '(err, fs', ext') := rootDownload (fs s) (ext s) r in
    do _ <- modify (fun s => set_ext ext' (set_fs fs' s));
    match err with
    | Some msg => ret (Some (ErrBackend msg))
    | None => ret None
    end.

(** Lines 138-183: the repository root of [p] and its local directory; an
    error is an early return. *)
Definition locateRoot (p : Package) (insecure : bool)
  : M (fetchError + repoRoot) :=
  do r <- resolveRoot p insecure;
  match r with
  | (_, Some err) => ret (inl (ErrBackend err))
  | (None, None) => panic nilDeref
  | (Some r0, None) =>
      if negb (isSecure (repo r0)) && negb insecure
      then ret (inl (ErrInsecure (repo r0)))
      else
        do placed <- placeInGopath p;
        match placed with
        | inl e => ret (inl e)
        | inr p' =>
            let d := Join (build.SrcRoot (Build (Internal p')))
                          (FromSlash (root r0)) in
            if bool_decide (dir r0 = "") then ret (inr (set_dir d r0))
            else if bool_decide (dir r0 <> d)
            then ret (inl (ErrPathDisagreement d (dir r0)))
            else ret (inr r0)
        end
  end.

Definition downloadPackage (p : Package) (update insecure : bool)
  : M (option fetchError) :=
  do _ <- log (EvFetch (ImportPath p));
  do located <- locateRoot p insecure;
  match located with
  | inl e => ret (Some e)
  | inr r =>
      do _ <- modify (fun s =>
        set_repoPackages (<[ImportPath p := r]> (repoPackages s)) s);
      do s <- get;
      match downloadRootCache s !! dir r with
      | Some _ => ret None
      | None =>
          do _ <- modify (fun s =>
            set_downloadRootCache (<[dir r := r]> (downloadRootCache s)) s);
          checkoutOrUpdate r
      end
  end.

(** ** The import graph walker: [download] *)

(** The call of [g.LoadImport] that the closure [load1] makes in state [s].
    The loader is handed the stack pointer, so the stack is whatever the
    loader leaves. *)
Definition loadResult (parent : option Package) (path : string)
    (useVendor : bool) (s : State) : LoadResult Ext :=
  match parent with
  | None =>
      LoadImport (fs s) (ext s) (packageCache s) (stk s) path "/" None false
  | Some q =>
      LoadImport (fs s) (ext s) (packageCache s) (stk s) path (Dir q)
                 (Some q) useVendor
  end.

Definition loaded (r : LoadResult Ext) (s : State) : State :=
  set_ext (lrExt r) (set_stk (lrStack r) (set_packageCache (lrCache r) s)).

Definition load1 (parent : option Package) (path : string) (useVendor : bool)
  : M Package :=
  do s <- get;
  let r := loadResult parent path useVendor s in
  do _ <- modify (loaded r);
  ret (lrPackage r).

Definition isHard (e : option PackageError) : bool :=
  match e with Some pe => Hard pe | None => false end.

(** Lines 122-124: the path handed to the recursive call for the import at
    index [i] of [p.Imports]. *)
Definition importTarget (p : Package) (i : nat) (path : string) : string :=
  if bool_decide (length (Imports p) <= i) then VendoredImportPath p path
  else path.

(** Lines 98-128: the loop over [p.Imports], from index [i] on; [rec] is the
    recursive call of [download]. *)
Fixpoint forImports
    (rec : string -> option Package -> bool -> bool -> bool ->
           M (option PackageError))
    (p : Package) (update insecure : bool) (i : nat) (imports : list string)
  : M (option PackageError) :=
  match imports with
  | [] => ret None
  | path :: rest =>
      if bool_decide (path = "C")
      then forImports rec p update insecure (S i) rest
      else
        let orig :=
          match build.Imports (Build (Internal p)) !! i with
          | Some o => o
          | None => path
          end in
        match FindVendor orig with
        | Some j =>
            do _ <- Push path;
            do cp <- Copy;
            if bool_decide (j + 7 <= String.length path)
            then
              let err :=
                {| ErrStack := cp;
                   Err := "must be imported as " +:+
                          String.substring
                            (j + 7) (String.length path - (j + 7)) path;
                   Hard := false |} in
              do _ <- Pop;
              ret (Some err)
            else panic sliceBounds
        | None =>
            do err <- rec (importTarget p i path) (Some p) update insecure
                          false;
            match err with
            | Some e => ret (Some e)
            | None => forImports rec p update insecure (S i) rest
            end
        end
  end.

(** Lines 95-129: the loop over [pkgs]. *)
Fixpoint forPkgs
    (rec : string -> option Package -> bool -> bool -> bool ->
           M (option PackageError))
    (update insecure : bool) (pkgs : list Package)
  : M (option PackageError) :=
  match pkgs with
  | [] => ret None
  | p :: rest =>
      do err <- forImports rec p update insecure 0 (Imports p);
      match err with
      | Some e => ret (Some e)
      | None => forPkgs rec update insecure rest
      end
  end.

(** Lines 50-86: fetch the package and load it again, or remember the
    repository of the package that is there.  [inl] is an early return. *)
Definition fetchOrRemember (p : Package) (path : string)
    (parent : option Package) (update insecure : bool)
  : M (PackageError + list Package) :=
  if bool_decide (Dir p = "") || update then
    do _ <- Push path;
    do err <- downloadPackage p update insecure;
    match err with
    | Some e =>
        do cp <- Copy;
        let perr := {| ErrStack := cp; Err := errText e; Hard := false |} in
        do _ <- Pop;
        ret (inl perr)
    | None =>
        do _ <- Pop;
        do _ <- modify (fun s =>
          set_packageCache
            (ClearPackageCachePartial (packageCache s) [path]) s);
        do p' <- load1 parent path false;
        match Error p' with
        | Some e => ret (inl e)
        | None => ret (inr [p'])
        end
    end
  else
    do s <- get;
    do _ <-
      match fst (vcsFromDir (fs s) (Dir p)
                            (build.SrcRoot (Build (Internal p)))) with
      | Some r =>
          modify (fun s =>
            set_repoPackages (<[ImportPath p := r]> (repoPackages s)) s)
      | None => ret tt
      end;
    ret (inr [p]).

(** Lines 31-131: what [download] does with the package [p] it has loaded
    once the hard error is excluded; [rec] stands for the recursive
    calls. *)
Definition walkLoaded
    (rec : string -> option Package -> bool -> bool -> bool ->
           M (option PackageError))
    (p : Package) (parent : option Package) (update insecure single : bool)
  : M (option PackageError) :=
  let path := ImportPath p in
  if Standard p then ret None
  else
    do s <- get;
    if default false (downloadCache s !! path) then ret None
    else
      do _ <- when (negb single) (modify (fun s =>
        set_downloadCache (<[path := true]> (downloadCache s)) s));
      do fetched <- fetchOrRemember p path parent update insecure;
      match fetched with
      | inl e => ret (Some e)
      | inr pkgs =>
          if single then ret None
          else forPkgs rec update insecure pkgs
      end.

(** One invocation of [download]. *)
Definition downloadBody
    (rec : string -> option Package -> bool -> bool -> bool ->
           M (option PackageError))
    (path : string) (parent : option Package) (update insecure single : bool)
  : M (option PackageError) :=
  do _ <- log (EvWalk path);
  do p <- load1 parent path false;
  if isHard (Error p) then ret (Error p)
  else walkLoaded rec p parent update insecure single.

Fixpoint download (fuel : nat) (path : string) (parent : option Package)
    (update insecure single : bool) : M (option PackageError) :=
  match fuel with
  | 0 => outOfFuel
  | S fuel' =>
      downloadBody (download fuel') path parent update insecure single
  end.

(** ** The hint pass of [Get] *)

(** Lines 66-71 of [processPath]: the loop over [p.Imports]. *)
Fixpoint forHintImports (rec : string -> M (list string))
    (imports : list string) (urls : gset string) : M (gset string) :=
  match imports with
  | [] => ret urls
  | imp :: rest =>
      do urlsForImport <- rec imp;
      forHintImports rec rest (urls ∪ list_to_set urlsForImport)
  end.

(** Lines 74-83 of [processPath]: the repository of the path itself, the
    one remembered in [repoPackages] or else the one found from the
    directory of the package. *)
Definition addOwnRepo (s : State) (path : string) (p : option Package)
    (urls : gset string) : gset string :=
  match repoPackages s !! path with
  | Some repoForThisPath => urls ∪ {[repo repoForThisPath]}
  | None =>
      match p with
      | Some q =>
          match fst (vcsFromDir (fs s) (Dir q)
                       (build.SrcRoot (Build (Internal q)))) with
          | Some r => urls ∪ {[repo r]}
          | None => urls
          end
      | None => urls
      end
  end.

(** One invocation of the closure [processPath].  [p.Standard] is read
    before [p] is compared with nil.  Go ranges over the map [urls] in an
    unspecified order; the model takes the order of [elements]. *)
Definition processPathBody (rec : string -> M (list string)) (path : string)
  : M (list string) :=
  do _ <- log (EvProcess path);
  do s <- get;
  let p := packageCache s !! path in
  do standard <-
    match p with
    | None => panic nilDeref
    | Some q => ret (Standard q)
    end;
  if (standard : bool) then ret []
  else
    do urls <-
      match p with
      | Some q => forHintImports rec (Imports q) ∅
      | None => ret ∅
      end;
    do s <- get;
    let urlsArray := elements (addOwnRepo s path p urls) in
    do _ <- modify (fun s => set_hints (<[path := urlsArray]> (hints s)) s);
    ret urlsArray.

Fixpoint processPath (fuel : nat) (path : string) : M (list string) :=
  match fuel with
  | 0 => outOfFuel
  | S fuel' => processPathBody (processPath fuel') path
  end.

(** [Get]: the walk, then the hint pass, then [g.gitreq.SetHints]. *)
Definition Get (fuel : nat) (path : string) (update insecure single : bool)
  : M (option PackageError) :=
  do _ <- modify (set_stk []);
  do err <- download fuel path None update insecure single;
  match err with
  | Some e => ret (Some e)
  | None =>
      if single then ret None
      else
        do _ <- modify (set_hints ∅);
        do _ <- processPath fuel path;
        do s <- get;
        do _ <- log (EvSetHints (hints s));
        ret None
  end.

(** [New]: every map empty. *)
Definition New (fs0 : FS) (ext0 : Ext) (gopath goroot : string)
    (send0 : bool) : State :=
  {| packageCache := ∅; downloadCache := ∅; downloadRootCache := ∅;
     repoPackages := ∅; GOPATH := gopath; GOROOT := goroot; send := send0;
     fs := fs0; ext := ext0; stk := []; hints := ∅; trace := [] |}.

End Program.

(** ** A table-driven world for the examples

    The filesystem is the set of directories that hold a checkout; the
    collaborators have no private state.  The loader consults a table of
    packages that may depend on the filesystem, records the package in the
    package cache under its import path and leaves the stack alone. *)
Record Scenario := {
  scLoad : gset string -> string -> Package;
  scFindVendor : string -> option nat;
  scVendored : Package -> string -> string;
  scVcs : gset string -> string -> string -> option repoRoot * option string;
  scResolve : string -> bool -> option repoRoot * option string;
  scSecure : string -> bool
}.

Definition scenarioCollab (sc : Scenario) : Collab (gset string) unit :=
  {| LoadImport := fun fs0 _ cache stk0 path _ _ _ =>
       let p := scLoad sc fs0 path in
       {| lrPackage := p; lrCache := <[ImportPath p := p]> cache;
          lrStack := stk0; lrExt := tt |};
     ClearPackageCachePartial := fun cache args =>
       foldr (fun arg c => delete arg c) cache args;
     FindVendor := scFindVendor sc;
     VendoredImportPath := scVendored sc;
     vcsFromDir := scVcs sc;
     repoRootForImportPath := fun _ path insecure =>
       (scResolve sc path insecure, tt);
     isSecure := scSecure sc;
     Stat := fun fs0 d => bool_decide (d ∈ fs0);
     MkdirAll := fun fs0 _ => (None, fs0);
     create := fun fs0 _ r => (None, fs0 ∪ {[dir r]}, tt);
     rootDownload := fun fs0 _ _ => (None, fs0, tt);
     SplitList := fun l => if bool_decide (l = "") then [] else [l];
     Clean := fun d => d;
     Join := fun a b => a +:+ "/" +:+ b;
     FromSlash := fun d => d;
     Split := fun d => (d, "") |}.

Definition mkPackage (importPath dir0 srcRoot : string)
    (imports buildImports : list string) (err : option PackageError)
  : Package :=
  {| ImportPath := importPath; Dir := dir0; Standard := false;
     Imports := imports; Error := err;
     Internal :=
       {| Build := {| build.Root := ""; build.SrcRoot := srcRoot;
                      build.PkgRoot := ""; build.Imports := buildImports |} |}
  |}.

(** A package of the remote host [example.com]: missing until its
    repository is checked out under [/gopath/src]. *)
Definition remotePackage (fs0 : gset string) (importPath : string)
    (imports : list string) (err : option PackageError) : Package :=
  if bool_decide ("/gopath/src/" +:+ importPath ∈ fs0)
  then mkPackage importPath ("/gopath/src/" +:+ importPath) "/gopath/src"
                 imports imports err
  else mkPackage importPath "" "" [] []
         (Some {| ErrStack := []; Err := "cannot find package";
                  Hard := false |}).

(** A package that is on disk from the start, outside any checkout. *)
Definition localPackage (importPath : string)
    (imports buildImports : list string) : Package :=
  mkPackage importPath ("/work/src/" +:+ importPath) "/work/src"
            imports buildImports None.

Definition demoLoad (fs0 : gset string) (path : string) : Package :=
  if bool_decide (path = "./foo") || bool_decide (path = "example.com/foo")
  then remotePackage fs0 "example.com/foo" [] None
  else if bool_decide (path = "example.com/soft")
  then remotePackage fs0 "example.com/soft" ["example.com/foo"]
         (Some {| ErrStack := []; Err := "no buildable Go source files";
                  Hard := false |})
  else if bool_decide (path = "http.org/x")
  then remotePackage fs0 "http.org/x" [] None
  else if bool_decide (path = "app")
  then localPackage "app" ["liba"; "testdep"] ["liba"]
  else if bool_decide (path = "cgo")
  then localPackage "cgo" ["C"] ["C"]
  else if bool_decide (path = "top")
  then localPackage "top" ["left"; "right"] ["left"; "right"]
  else if bool_decide (path = "left")
  then localPackage "left" ["base"] ["base"]
  else if bool_decide (path = "right")
  then localPackage "right" ["base"] ["base"]
  else localPackage path [] [].

Definition demoRoot (importPath : string) (secure : bool) : repoRoot :=
  {| repo := (if secure then "https://" else "http://") +:+ importPath;
     root := importPath; dir := ""; exists_ := false |}.

Definition demo : Scenario :=
  {| scLoad := demoLoad;
     scFindVendor := fun _ => None;
     scVendored := fun p path => ImportPath p +:+ "/vendor/" +:+ path;
     scVcs := fun fs0 d _ =>
       if bool_decide (d ∈ fs0)
       then
         let importPath := String.substring 12 (String.length d - 12) d in
         (Some {| repo := "https://" +:+ importPath; root := importPath;
                  dir := d; exists_ := true |}, None)
       else (None, Some ("no repository above " +:+ d));
     scResolve := fun path _ =>
       (Some (demoRoot path (negb (bool_decide (path = "http.org/x")))), None);
     scSecure := fun r => String.prefix "https://" r |}.

Definition demoK : Collab (gset string) unit := scenarioCollab demo.

Definition demoNew : State (gset string) unit :=
  New ∅ tt "/gopath" "/goroot" true.

(** The [Getter] after [download] of "./foo" in single mode. *)
Definition afterSingleFoo : State (gset string) unit :=
  snd (download (K:=demoK) 5 "./foo" None false false true demoNew).

(** The [Getter] after [download] of "./foo" with its dependencies. *)
Definition afterFoo : State (gset string) unit :=
  snd (download (K:=demoK) 5 "./foo" None false false false demoNew).

(** The package example.com/foo as the loader sees it once its repository
    is checked out. *)
Definition fooFetched : Package :=
  demoLoad {["/gopath/src/example.com/foo"]} "example.com/foo".

(** A fresh [Getter] on a filesystem that holds the checkout of
    example.com/foo. *)
Definition demoWithFoo : State (gset string) unit :=
  New {["/gopath/src/example.com/foo"]} tt "/gopath" "/goroot" true.

(** A fresh [Getter] on a filesystem that holds the checkout of
    example.com/soft, a package with a soft error that imports
    example.com/foo. *)
Definition demoWithSoft : State (gset string) unit :=
  New {["/gopath/src/example.com/soft"]} tt "/gopath" "/goroot" true.

(** The package cache of a diamond: top imports left and right, which both
    import base. *)
Definition diamondCache : gmap string Package :=
  <["top" := demoLoad ∅ "top"]>
    (<["left" := demoLoad ∅ "left"]>
       (<["right" := demoLoad ∅ "right"]>
          (<["base" := demoLoad ∅ "base"]> ∅))).

Definition diamondRank (path : string) : nat :=
  if bool_decide (path = "top") then 2
  else if bool_decide (path = "left") || bool_decide (path = "right") then 1
  else 0.

Definition diamondState : State (gset string) unit :=
  set_packageCache diamondCache demoNew.

(** The diamond next to the package cgo, which imports "C" and is imported
    by no package of the diamond; no package is cached under "C". *)
Definition diamondAndCgoState : State (gset string) unit :=
  set_packageCache (<["cgo" := demoLoad ∅ "cgo"]> diamondCache) demoNew.

(** The package cache of a cycle: ping imports pong, pong imports ping. *)
Definition cycleState : State (gset string) unit :=
  set_packageCache
    (<["ping" := localPackage "ping" ["pong"] ["pong"]]>
       (<["pong" := localPackage "pong" ["ping"] ["ping"]]> ∅))
    demoNew.


(** The world [demo] with a vendoring resolver that knows the vendor
    segment of app/vendor/dep, at offset 4. *)
Definition vendorDemo : Scenario :=
  {| scLoad := scLoad demo;
     scFindVendor := fun path =>
       if bool_decide (path = "app/vendor/dep") then Some 4 else None;
     scVendored := scVendored demo;
     scVcs := scVcs demo;
     scResolve := scResolve demo;
     scSecure := scSecure demo |}.

Definition vendorK : Collab (gset string) unit := scenarioCollab vendorDemo.

(** A package that imports a dependency under its full vendor path. *)
Definition vendoringApp : Package :=
  localPackage "app" ["app/vendor/dep"] ["app/vendor/dep"].

(** * Vocabulary of the properties *)

Section Vocabulary.
Context {FS Ext : Type} {K : Collab FS Ext}.
Local Abbreviation State := (State FS Ext).
Local Abbreviation M := (M (FS:=FS) (Ext:=Ext)).

(** ** State predicates kept by a computation, whatever its result *)
Definition pres (I : State -> Prop) {A} (c : M A) : Prop :=
  forall s, I s -> I (snd (c s)).

(** A predicate on states is [Framed] when it does not look at what the
    walker writes outside the orchestrator: the loader's writes, the stack,
    the [downloadCache] mark and the remembered repository. *)
Record Framed (I : State -> Prop) : Prop := {
  st_packageCache : forall s v, I s -> I (set_packageCache v s);
  st_stk : forall s v, I s -> I (set_stk v s);
  st_ext : forall s v, I s -> I (set_ext v s);
  st_hints : forall s v, I s -> I (set_hints v s);
  st_repoPackages : forall s v, I s -> I (set_repoPackages v s);
  st_downloadCache : forall s k,
    I s -> I (set_downloadCache (<[k := true]> (downloadCache s)) s)
}.

(** It is [Steady] when the orchestrator as a whole keeps it too: one
    invocation of the walker keeps it once the invocation is entered. *)
Record Steady (I : State -> Prop) : Prop := {
  st_framed : Framed I;
  st_fetch : forall p update insecure,
    pres I (downloadPackage p update insecure)
}.

(** It is [Stable] when the ghost marks of the walker and of the hint pass
    and the hand-over of the hints keep it too. *)
Record Stable (I : State -> Prop) : Prop := {
  st_steady : Steady I;
  st_walk : forall s p, I s -> I (record (EvWalk p) s);
  st_process : forall s p, I s -> I (record (EvProcess p) s);
  st_setHints : forall s h, I s -> I (record (EvSetHints h) s)
}.

(** A predicate is [Quiet] when it looks at nothing the orchestrator writes
    after its entry mark: the filesystem, the collaborators' state, the two
    repository maps, and the events of the checkout. *)
Record Quiet (I : State -> Prop) : Prop := {
  q_fs : forall s v, I s -> I (set_fs v s);
  q_ext : forall s v, I s -> I (set_ext v s);
  q_repoPackages : forall s v, I s -> I (set_repoPackages v s);
  q_downloadRootCache : forall s v, I s -> I (set_downloadRootCache v s);
  q_event : forall s e, isBackend e = true -> I s -> I (record e s)
}.

(** From a state in [P] the computation ends, whatever its result, in a
    state in [Q]. *)
Definition leads {A} (P Q : State -> Prop) (c : M A) : Prop :=
  forall s, P s -> Q (snd (c s)).

(** The computation never runs out of recursion budget. *)
Definition fuelFree {A} (c : M A) : Prop :=
  forall s, fst (c s) <> OutOfFuel.

(** Partial correctness: from a state in [P], if the computation returns
    [a] in state [s'], then [Q a s']. *)
Definition triple {A} (P : State -> Prop) (c : M A)
    (Q : A -> State -> Prop) : Prop :=
  forall s a s', P s -> c s = (Ret a, s') -> Q a s'.

(** The walker has marked the import path [k] as processed. *)
Definition marked (k : string) (s : State) : Prop :=
  downloadCache s !! k = Some true.

(** The import stack is [l]. *)
Definition stackIs (l : ImportStack) (s : State) : Prop := stk s = l.

(** The loader leaves the import stack as it found it. *)
Definition loaderKeepsStack : Prop :=
  forall fs0 ext0 cache stk0 path srcDir parent useVendor,
    lrStack (LoadImport fs0 ext0 cache stk0 path srcDir parent useVendor)
    = stk0.

(** No directory has been checked out twice, and a directory that has been
    checked out is in [downloadRootCache]. *)
Definition checkedOutOnce (s : State) : Prop :=
  forall d, countEv (isCreate d) (trace s) <=
            match downloadRootCache s !! d with Some _ => 1 | None => 0 end.

(** The calls a client can make on a [Getter]. *)
Inductive Call :=
| CallGet (fuel : nat) (path : string) (update insecure single : bool)
| CallDownload (fuel : nat) (path : string) (parent : option Package)
               (update insecure single : bool)
| CallDownloadPackage (p : Package) (update insecure : bool).

Definition runCall (c : Call) (s : State) : State :=
  match c with
  | CallGet fuel path update insecure single =>
      snd (Get fuel path update insecure single s)
  | CallDownload fuel path parent update insecure single =>
      snd (download fuel path parent update insecure single s)
  | CallDownloadPackage p update insecure =>
      snd (downloadPackage p update insecure s)
  end.

(** A run: the calls one after the other on the same [Getter]. *)
Definition runCalls (calls : list Call) (s : State) : State :=
  foldl (fun s c => runCall c s) s calls.

End Vocabulary.


(** * Vocabulary of the further properties *)

Definition isSend (e : Event) : bool :=
  match e with EvSend _ => true | _ => false end.

Definition isAnyCreate (e : Event) : bool :=
  match e with EvCreate _ => true | _ => false end.

Definition isSetHints (e : Event) : bool :=
  match e with EvSetHints _ => true | _ => false end.

Definition isWalkOf (path : string) (e : Event) : bool :=
  match e with EvWalk p => bool_decide (p = path) | _ => false end.


Section FurtherVocabulary.
Context {FS Ext : Type}.

(** Every entry of [downloadRootCache] is stored under its own directory. *)
Definition rootsKeyedByDir (s : State FS Ext) : Prop :=
  forall d r, downloadRootCache s !! d = Some r -> dir r = d.

(** [downloadCache] holds marks only: no entry is [false]. *)
Definition marksOnly (s : State FS Ext) : Prop :=
  forall k b, downloadCache s !! k = Some b -> b = true.

(** One notification for each checkout when there is a progress sink, none
    otherwise. *)
Definition notifiedOncePerCheckout (s : State FS Ext) : Prop :=
  countEv isSend (trace s)
  = if send s then countEv isAnyCreate (trace s) else 0.

(** [s'] is [s] up to the hints and the trace. *)
Definition sameButHints (s s' : State FS Ext) : Prop :=
  s' = set_trace (trace s') (set_hints (hints s') s).

End FurtherVocabulary.

Section RevisitVocabulary.
Context {FS Ext : Type}.

(** [rec] where the path [k] is marked in [downloadCache]; a panic
    elsewhere. *)
Definition onlyWhereMarked (k : string)
    (rec : string -> option Package -> bool -> bool -> bool ->
           M (FS:=FS) (Ext:=Ext) (option PackageError))
  : string -> option Package -> bool -> bool -> bool ->
    M (FS:=FS) (Ext:=Ext) (option PackageError) :=
  fun path parent update insecure single s =>
    if bool_decide (downloadCache s !! k = Some true)
    then rec path parent update insecure single s
    else (Panic "the path is not marked", s).

(** The trace starts with [t]. *)
Definition traceFrom (t : list Event) (s : State FS Ext) : Prop :=
  exists evs, trace s = t ++ evs.

Context {K : Collab FS Ext}.

(** The walker of which every invocation, at every depth, is made where
    the path [k] is marked; a recursive call made elsewhere panics. *)
Fixpoint downloadWhereMarked (k : string) (fuel : nat) (path : string)
    (parent : option Package) (update insecure single : bool)
  : M (FS:=FS) (Ext:=Ext) (option PackageError) :=
  onlyWhereMarked k
    (match fuel with
     | 0 => fun _ _ _ _ _ => outOfFuel
     | S fuel' => downloadBody (downloadWhereMarked k fuel')
     end) path parent update insecure single.

End RevisitVocabulary.

(** The paths that the hint pass reaches from [root] in the package cache
    [pc]: the root, and the imports of a reached package that is not
    standard. *)
Inductive reachable (pc : gmap string Package) (root : string)
  : string -> Prop :=
| reach_root : reachable pc root root
| reach_import q p imp :
    reachable pc root q -> pc !! q = Some p -> Standard p = false ->
    In imp (Imports p) -> reachable pc root imp.

(** * Properties *)

Section Invariants.
Context {FS Ext : Type} {K : Collab FS Ext}.
Local Abbreviation State := (State FS Ext).
Local Abbreviation M := (M (FS:=FS) (Ext:=Ext)).
Implicit Type I : State -> Prop.

Lemma pres_ret I {A} (a : A) : pres I (ret a).
Proof. intros s H; exact H. Qed.

Lemma pres_panic I {A} msg : pres I (panic (A:=A) msg).
Proof. intros s H; exact H. Qed.

Lemma pres_outOfFuel I {A} : pres I (outOfFuel (A:=A)).
Proof. intros s H; exact H. Qed.

Lemma pres_get I : pres I get.
Proof. intros s H; exact H. Qed.

Lemma pres_Copy I : pres I Copy.
Proof. intros s H; exact H. Qed.

Lemma pres_bind I {A B} (c : M A) (k : A -> M B) :
  pres I c -> (forall a, pres I (k a)) -> pres I (bind c k).
Proof.
  intros Hc Hk s H. unfold bind.
  specialize (Hc s H). destruct (c s) as [[a|msg|] s1]; simpl in *; auto.
  apply Hk, Hc.
Qed.

Lemma pres_modify I (f : State -> State) :
  (forall s, I s -> I (f s)) -> pres I (modify f).
Proof. intros Hf s H; apply Hf, H. Qed.

Lemma pres_when I b c : pres I c -> pres I (when b c).
Proof. destruct b; simpl; auto using pres_ret. Qed.

(** One step of a proof that a computation keeps a predicate: split a
    [bind], close a leaf, or case on what the program branches on. *)
Ltac pres_step :=
  first
    [ apply pres_ret | apply pres_panic | apply pres_outOfFuel
    | apply pres_get | apply pres_Copy
    | apply pres_bind; [ | intros ? ]
    | apply pres_when
    | match goal with
      | |- pres _ (match ?x with _ => _ end) => destruct x eqn:?
      end ].

Section FramedSteps.
Variable I : State -> Prop.
Hypothesis HF : Framed I.

Lemma pres_Push p : pres I (Push p).
Proof. apply pres_modify; intros; apply st_stk; auto. Qed.

Lemma pres_Pop : pres I Pop.
Proof.
  intros s H. unfold Pop. destruct (stk s); simpl; auto.
  apply st_stk; auto.
Qed.

Lemma pres_load1 parent path useVendor : pres I (load1 parent path useVendor).
Proof.
  unfold load1. repeat pres_step.
  apply pres_modify. intros s H. unfold loaded.
  apply st_ext, st_stk, st_packageCache; auto.
Qed.

End FramedSteps.

Section SteadyWalk.
Variable I : State -> Prop.
Hypothesis HI : Steady I.
Let HF : Framed I := st_framed I HI.

Lemma pres_forImports rec p update insecure imports :
  (forall a b c d e, pres I (rec a b c d e)) ->
  forall i, pres I (forImports rec p update insecure i imports).
Proof.
  intros Hrec. induction imports as [|path rest IH]; intros i; simpl.
  - apply pres_ret.
  - repeat first [ assumption | apply IH | apply Hrec | apply pres_Push
                 | apply pres_Pop
                 | pres_step ].
Qed.

Lemma pres_forPkgs rec update insecure pkgs :
  (forall a b c d e, pres I (rec a b c d e)) ->
  pres I (forPkgs rec update insecure pkgs).
Proof.
  intros Hrec. induction pkgs as [|p rest IH]; simpl.
  - apply pres_ret.
  - repeat first [ assumption | apply IH
                 | apply pres_forImports; assumption | pres_step ].
Qed.

Lemma pres_fetchOrRemember p path parent update insecure :
  pres I (fetchOrRemember p path parent update insecure).
Proof.
  unfold fetchOrRemember.
  repeat first [ assumption | apply pres_Push | apply pres_Pop
               | apply pres_load1
               | apply (st_fetch I HI)
               | apply pres_modify; intros;
                 first [ apply st_packageCache | apply st_repoPackages ];
                 assumption
               | pres_step ].
Qed.

(** Single mode: after the entry mark nothing but steady steps. *)
Lemma pres_downloadBody_single rec path parent update insecure s :
  I (record (EvWalk path) s) ->
  I (snd (downloadBody rec path parent update insecure true s)).
Proof.
  unfold downloadBody, walkLoaded. unfold bind at 1. unfold log, modify.
  cbv beta iota. generalize (record (EvWalk path) s). clear s.
  apply pres_bind; [apply pres_load1; assumption | intros p].
  repeat first [ assumption | apply pres_fetchOrRemember | pres_step ].
Qed.

End SteadyWalk.

Section StableWalk.
Variable I : State -> Prop.
Hypothesis HS : Stable I.
Let HI : Steady I := st_steady I HS.
Let HF : Framed I := st_framed I HI.

Lemma pres_downloadBody rec path parent update insecure single :
  (forall a b c d e, pres I (rec a b c d e)) ->
  pres I (downloadBody rec path parent update insecure single).
Proof.
  intros Hrec. unfold downloadBody, walkLoaded, log.
  repeat first [ assumption | apply pres_load1 | apply pres_fetchOrRemember
               | apply pres_forPkgs; assumption
               | apply pres_modify; intros;
                 first [ apply st_walk | apply st_downloadCache ]; assumption
               | pres_step ].
Qed.

Lemma pres_download fuel : forall path parent update insecure single,
  pres I (download fuel path parent update insecure single).
Proof.
  induction fuel as [|fuel IH]; intros; simpl.
  - apply pres_outOfFuel.
  - apply pres_downloadBody. exact IH.
Qed.

Lemma pres_forHintImports rec imports :
  (forall a, pres I (rec a)) ->
  forall urls, pres I (forHintImports rec imports urls).
Proof.
  intros Hrec. induction imports as [|imp rest IH]; intros urls; simpl.
  - apply pres_ret.
  - apply pres_bind; [apply Hrec | intros; apply IH].
Qed.

Lemma pres_processPath fuel : forall path, pres I (processPath fuel path).
Proof.
  induction fuel as [|fuel IH]; intros; simpl.
  - apply pres_outOfFuel.
  - unfold processPathBody, log.
    repeat first [ assumption | apply pres_forHintImports; assumption
                 | apply pres_modify; intros;
                   first [ apply st_process | apply st_hints ]; assumption
                 | pres_step ].
Qed.

Lemma pres_Get fuel path update insecure single :
  pres I (Get fuel path update insecure single).
Proof.
  unfold Get, log.
  repeat first [ assumption | apply pres_download | apply pres_processPath
               | apply pres_modify; intros;
                 first [ apply st_stk | apply st_hints | apply st_setHints ];
                 assumption
               | pres_step ].
Qed.

End StableWalk.

(** ** Counting events *)

Lemma countEv_app f l1 l2 :
  countEv f (l1 ++ l2) = countEv f l1 + countEv f l2.
Proof. induction l1 as [|e l1 IH]; simpl; [reflexivity | rewrite IH; lia]. Qed.

Lemma countEv_record f e (s : State) :
  countEv f (trace (record e s)) =
  countEv f (trace s) + (if f e then 1 else 0).
Proof. unfold record; simpl. rewrite countEv_app; simpl. lia. Qed.

(** ** The orchestrator and quiet predicates *)

Lemma pres_panic_bind I {A B} msg (k : A -> M B) :
  pres I (bind (panic msg) k).
Proof. intros s H; exact H. Qed.

Lemma pres_log I e : (forall s, I s -> I (record e s)) -> pres I (log e).
Proof. intros H; apply pres_modify, H. Qed.

Ltac quiet_step HQ :=
  first
    [ apply pres_panic_bind
    | apply pres_log; intros; apply (q_event _ HQ); [reflexivity | assumption]
    | apply pres_modify; intros;
      repeat first [ apply (q_fs _ HQ) | apply (q_ext _ HQ)
                   | apply (q_repoPackages _ HQ)
                   | apply (q_downloadRootCache _ HQ) ];
      assumption
    | pres_step ].

Lemma pres_locateRoot_quiet I (HQ : Quiet I) p insecure :
  pres I (locateRoot p insecure).
Proof.
  unfold locateRoot, resolveRoot, placeInGopath. repeat quiet_step HQ.
Qed.

Lemma pres_checkoutOrUpdate_quiet I (HQ : Quiet I) r :
  pres I (checkoutOrUpdate r).
Proof. unfold checkoutOrUpdate. repeat quiet_step HQ. Qed.

(** After its entry mark the orchestrator keeps every quiet predicate. *)
Lemma downloadPackage_after_mark I (HQ : Quiet I) p update insecure s :
  I (record (EvFetch (ImportPath p)) s) ->
  I (snd (downloadPackage p update insecure s)).
Proof.
  unfold downloadPackage. unfold bind at 1. unfold log, modify.
  cbv beta iota. generalize (record (EvFetch (ImportPath p)) s). clear s.
  apply pres_bind; [apply pres_locateRoot_quiet; assumption | intros located].
  repeat first [ apply pres_checkoutOrUpdate_quiet; assumption
               | quiet_step HQ ].
Qed.

Lemma pres_downloadPackage_quiet I (HQ : Quiet I) p update insecure :
  (forall s q, I s -> I (record (EvFetch q) s)) ->
  pres I (downloadPackage p update insecure).
Proof. intros Hf s H. apply downloadPackage_after_mark; auto. Qed.

(** The prelude of the orchestrator writes nothing but the collaborators'
    private state. *)
Lemma locateRoot_frame p insecure s :
  snd (locateRoot p insecure s) =
  set_ext (ext (snd (locateRoot p insecure s))) s.
Proof.
  assert (H : pres (fun s' => s' = set_ext (ext s') s)
                   (locateRoot p insecure)).
  { unfold locateRoot, resolveRoot, placeInGopath.
    repeat first [ apply pres_modify; intros s' Hs'; rewrite Hs';
                   destruct s; reflexivity
                 | pres_step ]. }
  apply H. destruct s; reflexivity.
Qed.

(** ** Updates of an existing checkout *)

Section Counting.
Variable f : Event -> bool.
Variable R : nat -> Prop.
Hypothesis Hbackend : forall e, isBackend e = true -> f e = false.

Lemma count_record_other e (s : State) :
  f e = false -> countEv f (trace (record e s)) = countEv f (trace s).
Proof. intros H. rewrite countEv_record, H. lia. Qed.

Lemma count_framed : Framed (fun s : State => R (countEv f (trace s))).
Proof. split; intros; assumption. Qed.

Lemma count_quiet : Quiet (fun s : State => R (countEv f (trace s))).
Proof.
  split; intros; try assumption.
  rewrite count_record_other; auto.
Qed.

Lemma count_steady :
  (forall q, f (EvFetch q) = false) ->
  Steady (fun s : State => R (countEv f (trace s))).
Proof.
  intros Hfetch. split; [apply count_framed|].
  intros. apply pres_downloadPackage_quiet; [apply count_quiet|].
  intros. rewrite count_record_other; auto.
Qed.

Lemma count_stable :
  (forall q, f (EvFetch q) = false) ->
  (forall q, f (EvWalk q) = false) ->
  (forall q, f (EvProcess q) = false) ->
  (forall h, f (EvSetHints h) = false) ->
  Stable (fun s : State => R (countEv f (trace s))).
Proof.
  intros Hfetch Hwalk Hprocess Hset.
  split; [apply count_steady; assumption|..]; intros;
    rewrite count_record_other; auto.
Qed.

End Counting.

Lemma noUpdate_stable n :
  Stable (fun s : State => countEv isUpdate (trace s) = n).
Proof.
  apply (count_stable isUpdate (fun c => c = n)); try reflexivity.
  intros e; destruct e; simpl; congruence.
Qed.

(** C7. The update of an existing checkout is dead code.  No call of
    [downloadPackage] and no run of [Get] ever reaches [root.download]: the
    number of update events in the trace does not change.  At the decision
    between checkout and update a root with [exists] set panics with
    "root exists" and nothing else happens.  So when the root that
    [downloadPackage] resolves has [exists] set, the call panics, unless
    its directory was already in [downloadRootCache] and the call had
    returned at that guard, before the decision. *)
Theorem existing_checkout_aborts_before_update
    (p : Package) (update insecure : bool) (s : State) :
  countEv isUpdate (trace (snd (downloadPackage p update insecure s))) =
    countEv isUpdate (trace s)
  /\ (forall fuel path single,
        countEv isUpdate
          (trace (snd (Get fuel path update insecure single s))) =
        countEv isUpdate (trace s))
  /\ (forall r s0,
        exists_ r = true ->
        checkoutOrUpdate r s0 = (Panic "root exists", s0))
  /\ (forall r s1,
        locateRoot p insecure (record (EvFetch (ImportPath p)) s)
          = (Ret (inr r), s1) ->
        exists_ r = true ->
        match downloadRootCache s !! dir r with
        | None =>
            fst (downloadPackage p update insecure s) = Panic "root exists"
        | Some _ => fst (downloadPackage p update insecure s) = Ret None
        end).
Proof.
  split; [|split; [|split]].
  - apply (st_fetch _ (st_steady _ (noUpdate_stable _))). reflexivity.
  - intros. apply (pres_Get _ (noUpdate_stable _)). reflexivity.
  - intros r s0 Hex. unfold checkoutOrUpdate. rewrite Hex. reflexivity.
  - intros r s1 Hloc Hex.
    pose proof (locateRoot_frame p insecure
                  (record (EvFetch (ImportPath p)) s)) as Hfr.
    rewrite Hloc in Hfr; simpl in Hfr.
    unfold downloadPackage, bind, log, modify; simpl.
    rewrite Hloc; simpl.
    rewrite Hfr; simpl.
    destruct (downloadRootCache s !! dir r); [reflexivity|].
    unfold checkoutOrUpdate. rewrite Hex. reflexivity.
Qed.

(** ** The security gate *)

(** Case analysis on everything a computation branches on. *)
Ltac branches :=
  repeat match goal with
         | |- context [match ?x with _ => _ end] => destruct x eqn:?; simpl
         | H : context [match ?x with _ => _ end] |- _ =>
             destruct x eqn:?; simpl in H
         end.

Lemma checkoutOrUpdate_not_insecure r s x s' :
  checkoutOrUpdate r s = (Ret (Some (ErrInsecure x)), s') -> False.
Proof.
  unfold checkoutOrUpdate, bind, get, log, modify, when, ret, panic.
  branches; congruence.
Qed.

Lemma locateRoot_insecure p insecure s x s' :
  locateRoot p insecure s = (Ret (inl (ErrInsecure x)), s') ->
  insecure = false /\ isSecure x = false.
Proof.
  unfold locateRoot, resolveRoot, placeInGopath, bind, get, modify, ret,
    panic.
  branches; intros H; try congruence; inversion H; subst;
    match goal with
    | H : negb _ && negb _ = true |- _ =>
        apply andb_prop in H; destruct H as [H1 H2];
        apply negb_true_iff in H1, H2; auto
    end.
Qed.

(** C6. When [downloadPackage] returns the insecure-transport error, the
    caller had not allowed insecure transport, the repository is not
    secure, and nothing was done to the filesystem: the session filesystem
    is the one the call started with, the trace gained the entry mark of
    the orchestrator only, hence no MkdirAll and no checkout, and
    [downloadRootCache] is untouched. *)
Theorem insecure_error_precedes_any_mutation
    (p : Package) (update insecure : bool) (s : State) (r : string) :
  fst (downloadPackage p update insecure s) = Ret (Some (ErrInsecure r)) ->
  let s' := snd (downloadPackage p update insecure s) in
  insecure = false /\ isSecure r = false
  /\ fs s' = fs s
  /\ trace s' = trace s ++ [EvFetch (ImportPath p)]
  /\ countEv isMutation (trace s') = countEv isMutation (trace s)
  /\ downloadRootCache s' = downloadRootCache s.
Proof.
  unfold downloadPackage, bind, log, modify; simpl.
  pose proof (locateRoot_frame p insecure
                (record (EvFetch (ImportPath p)) s)) as Hfr.
  destruct (locateRoot p insecure (record (EvFetch (ImportPath p)) s))
    as [[[e|r1]|msg|] s1] eqn:Hloc; simpl in *; try discriminate.
  - intros H; inversion H; subst e.
    destruct (locateRoot_insecure _ _ _ _ _ Hloc) as [Hi Hs].
    rewrite Hfr; simpl. rewrite countEv_app; simpl. repeat split; auto.
  - destruct (downloadRootCache s1 !! dir r1); simpl; [discriminate|].
    intros H. exfalso.
    match type of H with
    | fst (checkoutOrUpdate ?a ?b) = _ =>
        destruct (checkoutOrUpdate a b) as [res s2] eqn:Hc
    end.
    simpl in H; subst res.
    eapply checkoutOrUpdate_not_insecure; eauto.
Qed.

(** ** Single mode *)

Lemma leads_ret (P Q : State -> Prop) {A} (a : A) :
  (forall s, P s -> Q s) -> leads P Q (ret a).
Proof. intros H s Hs; apply H, Hs. Qed.

Lemma leads_bind_pre (P Q : State -> Prop) {A B} (c : M A) (k : A -> M B) :
  (forall s, P s -> Q s) ->
  pres P c -> (forall a, leads P Q (k a)) -> leads P Q (bind c k).
Proof.
  intros HPQ Hc Hk s Hs. unfold bind.
  specialize (Hc s Hs). destruct (c s) as [[a|msg|] s1]; simpl in *; auto.
  apply Hk, Hc.
Qed.

Lemma leads_bind_post (P Q : State -> Prop) {A B} (c : M A) (k : A -> M B) :
  leads P Q c -> (forall a, pres Q (k a)) -> leads P Q (bind c k).
Proof.
  intros Hc Hk s Hs. unfold bind.
  specialize (Hc s Hs). destruct (c s) as [[a|msg|] s1]; simpl in *; auto.
  apply Hk, Hc.
Qed.

Section OneFetch.
Variables P Q : State -> Prop.
Hypothesis HP : Framed P.
Hypothesis HQ : Framed Q.
Hypothesis HQq : Quiet Q.
Hypothesis HPQ : forall s, P s -> Q s.
Hypothesis Hmark : forall s q, P s -> Q (record (EvFetch q) s).

(** What holds before the one call of the orchestrator leads to what holds
    after it. *)
Lemma leads_fetchOrRemember p path parent update insecure :
  leads P Q (fetchOrRemember p path parent update insecure).
Proof.
  unfold fetchOrRemember.
  destruct (bool_decide (Dir p = "") || update).
  - apply leads_bind_pre; [assumption | apply pres_Push; assumption |].
    intros _. apply leads_bind_post.
    + intros s Hs. apply downloadPackage_after_mark; auto.
    + intros err.
      repeat first [ assumption | apply pres_Pop | apply pres_load1
                   | apply pres_modify; intros; apply st_packageCache;
                     assumption
                   | pres_step ].
  - apply leads_bind_pre; [assumption | apply pres_get |]. intros s0.
    apply leads_bind_pre; [assumption | | intros; apply leads_ret; assumption].
    pres_step; [|apply pres_ret].
    apply pres_modify; intros; apply st_repoPackages; assumption.
Qed.

Lemma leads_downloadBody_single rec path parent update insecure s :
  P (record (EvWalk path) s) ->
  Q (snd (downloadBody rec path parent update insecure true s)).
Proof.
  unfold downloadBody, walkLoaded. unfold bind at 1. unfold log, modify.
  cbv beta iota. generalize (record (EvWalk path) s). clear s.
  apply leads_bind_pre; [assumption | apply pres_load1; assumption |].
  intros p. destruct (isHard (Error p)); [apply leads_ret; assumption|].
  destruct (Standard p); [apply leads_ret; assumption|].
  apply leads_bind_pre; [assumption | apply pres_get |]. intros s0.
  destruct (default false (downloadCache s0 !! ImportPath p));
    [apply leads_ret; assumption|].
  apply leads_bind_pre; [assumption | apply pres_ret |]. intros _.
  apply leads_bind_post; [apply leads_fetchOrRemember|].
  intros [e|pkgs]; apply pres_ret.
Qed.

End OneFetch.

(** The fuel is spent by the recursive calls of [download] and
    [processPath] only. *)
Lemma fuelFree_ret {A} (a : A) : fuelFree (ret a : M A).
Proof. intros s; discriminate. Qed.

Lemma fuelFree_panic {A} msg : fuelFree (panic msg : M A).
Proof. intros s; discriminate. Qed.

Lemma fuelFree_modify (f : State -> State) : fuelFree (modify f).
Proof. intros s; discriminate. Qed.

Lemma fuelFree_get : fuelFree (get : M State).
Proof. intros s; discriminate. Qed.

Lemma fuelFree_Copy : fuelFree (Copy : M (list string)).
Proof. intros s; discriminate. Qed.

Lemma fuelFree_Pop : fuelFree (Pop : M unit).
Proof. intros s; unfold Pop; destruct (stk s); discriminate. Qed.

Lemma fuelFree_bind {A B} (c : M A) (k : A -> M B) :
  fuelFree c -> (forall a, fuelFree (k a)) -> fuelFree (bind c k).
Proof.
  intros Hc Hk s. unfold bind. specialize (Hc s).
  destruct (c s) as [[a|msg|] s1]; simpl in *;
    [apply Hk | discriminate | congruence].
Qed.

Lemma fuelFree_when b (c : M unit) : fuelFree c -> fuelFree (when b c).
Proof. destruct b; simpl; auto using fuelFree_ret. Qed.

Ltac fuel_step :=
  first
    [ apply fuelFree_ret | apply fuelFree_panic | apply fuelFree_modify
    | apply fuelFree_get | apply fuelFree_Copy | apply fuelFree_Pop
    | apply fuelFree_bind; [ | intros ? ]
    | apply fuelFree_when
    | match goal with
      | |- fuelFree (match ?x with _ => _ end) => destruct x eqn:?
      end ].

Lemma fuelFree_load1 parent path useVendor :
  fuelFree (load1 parent path useVendor).
Proof. unfold load1. repeat fuel_step. Qed.

Lemma fuelFree_downloadPackage p update insecure :
  fuelFree (downloadPackage p update insecure).
Proof.
  unfold downloadPackage, locateRoot, resolveRoot, placeInGopath,
    checkoutOrUpdate, log.
  repeat fuel_step.
Qed.

Lemma fuelFree_fetchOrRemember p path parent update insecure :
  fuelFree (fetchOrRemember p path parent update insecure).
Proof.
  unfold fetchOrRemember, Push.
  repeat first [ apply fuelFree_downloadPackage | apply fuelFree_load1
               | fuel_step ].
Qed.

Lemma fuelFree_downloadBody_single rec path parent update insecure :
  fuelFree (downloadBody rec path parent update insecure true).
Proof.
  unfold downloadBody, walkLoaded, log. cbv beta iota.
  repeat first [ apply fuelFree_fetchOrRemember | apply fuelFree_load1
               | fuel_step ].
Qed.

(** C9. In single mode [download] makes no recursive call: one invocation
    is the same computation whatever stands for the recursive call, it
    never asks for more recursion budget than its own invocation, the trace
    gains one walker entry (its own), and at most one call of the
    orchestrator; it returns or panics. *)
Theorem single_mode_never_recurses
    (fuel : nat) (path : string) (parent : option Package)
    (update insecure : bool) (s : State) :
  let out := download (S fuel) path parent update insecure true s in
  (forall rec, out = downloadBody rec path parent update insecure true s)
  /\ fst out <> OutOfFuel
  /\ countEv isWalk (trace (snd out)) = S (countEv isWalk (trace s))
  /\ countEv isFetch (trace (snd out)) <= S (countEv isFetch (trace s)).
Proof.
  simpl. split; [|split; [|split]].
  - intros rec. reflexivity.
  - apply fuelFree_downloadBody_single.
  - apply (pres_downloadBody_single
             (fun s' => countEv isWalk (trace s')
                        = S (countEv isWalk (trace s)))).
    + apply (count_steady isWalk
               (fun c => c = S (countEv isWalk (trace s)))).
      * intros e; destruct e; simpl; congruence.
      * reflexivity.
    + rewrite countEv_record; simpl; lia.
  - apply (leads_downloadBody_single
             (fun s' => countEv isFetch (trace s')
                        = countEv isFetch (trace s))
             (fun s' => countEv isFetch (trace s')
                        <= S (countEv isFetch (trace s)))).
    + apply (count_framed isFetch
               (fun c => c = countEv isFetch (trace s))).
    + apply (count_framed isFetch
               (fun c => c <= S (countEv isFetch (trace s)))).
    + apply (count_quiet isFetch
               (fun c => c <= S (countEv isFetch (trace s)))).
      intros e; destruct e; simpl; congruence.
    + intros s' H; lia.
    + intros s' q H. rewrite countEv_record; simpl; lia.
    + rewrite countEv_record; simpl; lia.
Qed.

(** ** The import stack *)

Lemma triple_ret {A} (P : State -> Prop) (a : A) (Q : A -> State -> Prop) :
  (forall s, P s -> Q a s) -> triple P (ret a) Q.
Proof. intros H s a' s' Hs E; inversion E; subst; auto. Qed.

Lemma triple_panic {A} (P : State -> Prop) msg (Q : A -> State -> Prop) :
  triple P (panic msg : M A) Q.
Proof. intros s a s' _ E; discriminate. Qed.

Lemma triple_outOfFuel {A} (P : State -> Prop) (Q : A -> State -> Prop) :
  triple P (outOfFuel : M A) Q.
Proof. intros s a s' _ E; discriminate. Qed.

Lemma triple_bind {A B} (P : State -> Prop) (c : M A) (k : A -> M B)
    (Q' : A -> State -> Prop) (Q : B -> State -> Prop) :
  triple P c Q' -> (forall a, triple (Q' a) (k a) Q) -> triple P (bind c k) Q.
Proof.
  intros Hc Hk s b s' Hs. unfold bind.
  destruct (c s) as [[a|msg|] s1] eqn:E; try discriminate.
  intros E'. eapply Hk; [eapply Hc; eauto | exact E'].
Qed.

Lemma triple_of_pres {A} (I : State -> Prop) (c : M A) :
  pres I c -> triple I c (fun _ => I).
Proof.
  intros H s a s' Hs E. specialize (H s Hs). rewrite E in H. exact H.
Qed.

Lemma triple_Push l p :
  triple (stackIs l) (Push p : M unit) (fun _ => stackIs (l ++ [p])).
Proof.
  intros s a s' Hs E. inversion E; subst. unfold stackIs in *; simpl.
  rewrite Hs; reflexivity.
Qed.

Lemma triple_Pop l p :
  triple (stackIs (l ++ [p])) (Pop : M unit) (fun _ => stackIs l).
Proof.
  intros s a s' Hs. unfold Pop, stackIs in *.
  destruct (stk s) as [|x xs] eqn:Es; [destruct l; discriminate|].
  intros E; inversion E; subst s'. unfold set_stk; cbn [stk].
  match goal with |- _ = l => change (removelast (x :: xs) = l) end.
  rewrite Hs. apply removelast_last.
Qed.

Lemma stackIs_quiet l : Quiet (stackIs l : State -> Prop).
Proof. split; intros; assumption. Qed.

Lemma pres_stack_downloadPackage l p update insecure :
  pres (stackIs l) (downloadPackage p update insecure).
Proof.
  apply pres_downloadPackage_quiet; [apply stackIs_quiet|].
  intros; assumption.
Qed.

Section Stack.
Hypothesis Hloader : loaderKeepsStack.

Lemma pres_stack_load1 l parent path useVendor :
  pres (stackIs l) (load1 parent path useVendor).
Proof.
  intros s H. unfold load1, bind, get, modify, ret; simpl.
  unfold stackIs, loadResult in *; simpl.
  destruct parent; rewrite Hloader; exact H.
Qed.

(** A step that keeps the stack, then the rest. *)
Ltac keep_then :=
  eapply triple_bind;
  [ apply triple_of_pres;
    first [ apply pres_stack_load1 | apply pres_stack_downloadPackage
          | apply pres_get | apply pres_Copy
          | apply pres_modify; intros ? Hk; exact Hk
          | apply pres_when; apply pres_modify; intros ? Hk; exact Hk ]
  | cbv beta; intros ? ].

Lemma stack_fetchOrRemember l p path parent update insecure :
  triple (stackIs l) (fetchOrRemember p path parent update insecure)
         (fun _ => stackIs l).
Proof.
  unfold fetchOrRemember.
  destruct (bool_decide (Dir p = "") || update).
  - eapply triple_bind; [apply triple_Push | cbv beta; intros _].
    keep_then. destruct a as [e|].
    + keep_then.
      eapply triple_bind; [apply triple_Pop | cbv beta; intros _].
      apply triple_ret; auto.
    + eapply triple_bind; [apply triple_Pop | cbv beta; intros _].
      keep_then. keep_then.
      destruct (Error a0); apply triple_ret; auto.
  - keep_then.
    eapply triple_bind; [|intros; apply triple_ret; intros ? Hk; exact Hk].
    apply triple_of_pres.
    destruct (vcsFromDir _ _ _).1; [|apply pres_ret].
    apply pres_modify; intros ? Hk; exact Hk.
Qed.

Lemma stack_forImports rec p update insecure imports :
  (forall l a b c d e, triple (stackIs l) (rec a b c d e)
                              (fun _ => stackIs l)) ->
  forall l i, triple (stackIs l) (forImports rec p update insecure i imports)
                     (fun _ => stackIs l).
Proof.
  intros Hrec. induction imports as [|path rest IH]; intros l i; simpl.
  - apply triple_ret; auto.
  - destruct (bool_decide (path = "C")); [apply IH|].
    destruct (FindVendor _) as [j|].
    + eapply triple_bind; [apply triple_Push | cbv beta; intros _].
      keep_then.
      destruct (bool_decide (j + 7 <= String.length path));
        [|apply triple_panic].
      eapply triple_bind; [apply triple_Pop | cbv beta; intros _].
      apply triple_ret; auto.
    + eapply triple_bind; [apply Hrec | cbv beta; intros err].
      destruct err; [apply triple_ret; auto | apply IH].
Qed.

Lemma stack_forPkgs rec update insecure pkgs :
  (forall l a b c d e, triple (stackIs l) (rec a b c d e)
                              (fun _ => stackIs l)) ->
  forall l, triple (stackIs l) (forPkgs rec update insecure pkgs)
                   (fun _ => stackIs l).
Proof.
  intros Hrec. induction pkgs as [|p rest IH]; intros l; simpl.
  - apply triple_ret; auto.
  - eapply triple_bind; [apply stack_forImports; assumption|].
    cbv beta; intros err.
    destruct err; [apply triple_ret; auto | apply IH].
Qed.

Lemma stack_download fuel :
  forall l path parent update insecure single,
    triple (stackIs l) (download fuel path parent update insecure single)
           (fun _ => stackIs l).
Proof.
  induction fuel as [|fuel IH]; intros; simpl.
  - apply triple_outOfFuel.
  - unfold downloadBody, walkLoaded, log.
    keep_then. keep_then.
    destruct (isHard (Error a0)); [apply triple_ret; auto|].
    destruct (Standard a0); [apply triple_ret; auto|].
    keep_then.
    destruct (default false _); [apply triple_ret; auto|].
    keep_then.
    eapply triple_bind; [apply stack_fetchOrRemember | cbv beta].
    intros [e|pkgs]; [apply triple_ret; auto|].
    destruct single; [apply triple_ret; auto|].
    apply stack_forPkgs. exact IH.
Qed.

(** C8. Provided the loader leaves the import stack as it found it, every
    return of [download], with or without an error, leaves the stack as it
    was at the call: the entry pushed before the orchestrator and the entry
    pushed to build the vendor-path error have been popped. *)
Theorem download_restores_import_stack
    (fuel : nat) (path : string) (parent : option Package)
    (update insecure single : bool) (s s' : State)
    (r : option PackageError) :
  download fuel path parent update insecure single s = (Ret r, s') ->
  stk s' = stk s.
Proof.
  intros E.
  exact (stack_download fuel (stk s) path parent update insecure single
           s r s' eq_refl E).
Qed.

End Stack.

(** ** One checkout for each root directory *)

Lemma checkoutOrUpdate_creates r s d :
  downloadRootCache (snd (checkoutOrUpdate r s)) = downloadRootCache s
  /\ countEv (isCreate d) (trace s)
     <= countEv (isCreate d) (trace (snd (checkoutOrUpdate r s)))
     <= countEv (isCreate d) (trace s)
        + (if bool_decide (dir r = d) then 1 else 0).
Proof.
  unfold checkoutOrUpdate, bind, get, log, modify, when, ret, panic.
  branches;
    repeat match goal with
           | H : (_, _) = (_, _) |- _ => inversion H; clear H; subst
           end;
    unfold record; simpl; rewrite ?countEv_app; simpl;
    rewrite ?countEv_app; simpl; split; try reflexivity;
    repeat match goal with
           | |- context [bool_decide ?P] => destruct (bool_decide P)
           end; lia.
Qed.

Lemma checkedOutOnce_framed : Framed (checkedOutOnce : State -> Prop).
Proof. split; intros s v H d; exact (H d). Qed.

Lemma pres_checkedOutOnce_downloadPackage p update insecure :
  pres checkedOutOnce (downloadPackage p update insecure).
Proof.
  intros s H. unfold downloadPackage, bind, log, modify; simpl.
  pose proof (locateRoot_frame p insecure
                (record (EvFetch (ImportPath p)) s)) as Hfr.
  assert (H1 : checkedOutOnce
                 (snd (locateRoot p insecure
                         (record (EvFetch (ImportPath p)) s)))).
  { rewrite Hfr. intros d. specialize (H d). simpl.
    rewrite countEv_app; simpl. lia. }
  destruct (locateRoot p insecure (record (EvFetch (ImportPath p)) s))
    as [[[e|r]|msg|] s1]; simpl in *; try exact H1.
  destruct (downloadRootCache s1 !! dir r) eqn:Hd; simpl.
  - exact H1.
  - intros d.
    match goal with
    | |- context [checkoutOrUpdate r ?s3] =>
        destruct (checkoutOrUpdate_creates r s3 d) as [Hc [_ Hn]]
    end.
    rewrite Hc. specialize (H1 d).
    unfold set_downloadRootCache, set_repoPackages in *.
    cbn [downloadRootCache trace] in *.
    destruct (decide (dir r = d)) as [Heq|Hne].
    + subst d. rewrite lookup_insert_eq. rewrite Hd in H1.
      rewrite bool_decide_eq_true_2 in Hn by reflexivity. lia.
    + rewrite lookup_insert_ne by assumption.
      rewrite bool_decide_eq_false_2 in Hn by assumption. lia.
Qed.

Lemma checkedOutOnce_stable : Stable (checkedOutOnce : State -> Prop).
Proof.
  split; [split; [apply checkedOutOnce_framed|]|..].
  - apply pres_checkedOutOnce_downloadPackage.
  - intros s q H d. rewrite countEv_record; simpl.
    rewrite Nat.add_0_r. apply H.
  - intros s q H d. rewrite countEv_record; simpl.
    rewrite Nat.add_0_r. apply H.
  - intros s h H d. rewrite countEv_record; simpl.
    rewrite Nat.add_0_r. apply H.
Qed.

Lemma checkedOutOnce_runCalls calls : forall s,
  checkedOutOnce s -> checkedOutOnce (runCalls calls s).
Proof.
  induction calls as [|c calls IH]; intros s H; simpl; [exact H|].
  apply IH. destruct c; simpl.
  - apply (pres_Get _ checkedOutOnce_stable), H.
  - apply (pres_download _ checkedOutOnce_stable), H.
  - apply pres_checkedOutOnce_downloadPackage, H.
Qed.

(** Once a directory is recorded, the number of its checkouts stays. *)
Lemma recorded_stable d n :
  Stable (fun s : State =>
            is_Some (downloadRootCache s !! d)
            /\ countEv (isCreate d) (trace s) = n).
Proof.
  split; [split; [split; intros s v H; exact H|]|..].
  - intros p update insecure s [Hsome Hn].
    unfold downloadPackage, bind, log, modify; simpl.
    pose proof (locateRoot_frame p insecure
                  (record (EvFetch (ImportPath p)) s)) as Hfr.
    assert (H1 :
      is_Some (downloadRootCache
                 (snd (locateRoot p insecure
                         (record (EvFetch (ImportPath p)) s))) !! d)
      /\ countEv (isCreate d)
            (trace (snd (locateRoot p insecure
                           (record (EvFetch (ImportPath p)) s)))) = n).
    { rewrite Hfr; simpl. rewrite countEv_app; simpl.
      split; [exact Hsome|lia]. }
    clear Hfr.
    destruct (locateRoot p insecure (record (EvFetch (ImportPath p)) s))
      as [[[e|r]|msg|] s1]; simpl in *; try exact H1.
    destruct H1 as [Hs1 Hn1].
    destruct (downloadRootCache s1 !! dir r) eqn:Hd; simpl;
      [split; assumption|].
    match goal with
    | |- context [checkoutOrUpdate r ?s3] =>
        destruct (checkoutOrUpdate_creates r s3 d) as [Hc Hb]
    end.
    rewrite Hc. unfold set_downloadRootCache, set_repoPackages in *.
    cbn [downloadRootCache trace] in *.
    assert (Hne : dir r <> d).
    { intros Heq. rewrite Heq in Hd. rewrite Hd in Hs1.
      destruct Hs1; discriminate. }
    rewrite lookup_insert_ne by assumption.
    rewrite bool_decide_eq_false_2 in Hb by assumption.
    split; [exact Hs1|lia].
  - intros s q [Hsome Hn]. rewrite countEv_record; simpl.
    split; [exact Hsome|lia].
  - intros s q [Hsome Hn]. rewrite countEv_record; simpl.
    split; [exact Hsome|lia].
  - intros s h [Hsome Hn]. rewrite countEv_record; simpl.
    split; [exact Hsome|lia].
Qed.

Lemma recorded_runCalls d n calls : forall s : State,
  is_Some (downloadRootCache s !! d) /\ countEv (isCreate d) (trace s) = n ->
  is_Some (downloadRootCache (runCalls calls s) !! d)
  /\ countEv (isCreate d) (trace (runCalls calls s)) = n.
Proof.
  induction calls as [|c calls IH]; intros s H; simpl; [exact H|].
  apply IH. destruct c; simpl.
  - apply (pres_Get _ (recorded_stable d n)), H.
  - apply (pres_download _ (recorded_stable d n)), H.
  - apply (st_fetch _ (st_steady _ (recorded_stable d n))), H.
Qed.

(** C1. In every run of calls on one [Getter] that starts from [New], the
    checkout of the repository backend is invoked at most once for each
    local root directory.  Once a root directory is recorded in
    [downloadRootCache], no later call of [Get], of the walker or of the
    orchestrator checks it out again; and a call of the orchestrator that
    resolves to this directory returns nil and does nothing but remember
    the repository of the package: no MkdirAll, no notification, no
    checkout. *)
Theorem checkout_at_most_once_per_root
    (calls : list Call) (fs0 : FS) (ext0 : Ext) (gopath goroot : string)
    (send0 : bool) (d : string)
    (p : Package) (update insecure : bool) (s : State) :
  countEv (isCreate d)
          (trace (runCalls calls (New fs0 ext0 gopath goroot send0))) <= 1
  /\ (is_Some (downloadRootCache s !! d) ->
      countEv (isCreate d) (trace (runCalls calls s))
      = countEv (isCreate d) (trace s))
  /\ (forall r s1,
        locateRoot p insecure (record (EvFetch (ImportPath p)) s)
          = (Ret (inr r), s1) ->
        is_Some (downloadRootCache s !! dir r) ->
        let out := downloadPackage p update insecure s in
        fst out = Ret None
        /\ trace (snd out) = trace s ++ [EvFetch (ImportPath p)]
        /\ fs (snd out) = fs s
        /\ downloadRootCache (snd out) = downloadRootCache s).
Proof.
  split; [|split].
  - assert (H : checkedOutOnce
                  (runCalls calls (New fs0 ext0 gopath goroot send0))).
    { apply checkedOutOnce_runCalls. intros d'. simpl. lia. }
    specialize (H d).
    destruct (downloadRootCache _ !! d); lia.
  - intros Hsome.
    apply (recorded_runCalls d (countEv (isCreate d) (trace s)) calls s).
    split; [exact Hsome|reflexivity].
  - intros r s1 Hloc [r' Hsome].
    pose proof (locateRoot_frame p insecure
                  (record (EvFetch (ImportPath p)) s)) as Hfr.
    rewrite Hloc in Hfr; simpl in Hfr.
    unfold downloadPackage, bind, log, modify; simpl.
    rewrite Hloc; simpl.
    rewrite Hfr; simpl. rewrite Hsome; simpl. auto.
Qed.

(** ** The [downloadCache] mark *)

Lemma load1_eq parent path useVendor (s : State) :
  load1 parent path useVendor s =
  (Ret (lrPackage (loadResult parent path useVendor s)),
   loaded (loadResult parent path useVendor s) s).
Proof. reflexivity. Qed.

Lemma marked_stable k : Stable (marked k : State -> Prop).
Proof.
  assert (HF : Framed (marked k : State -> Prop)).
  { split; intros s v H; try exact H.
    unfold marked in *; simpl.
    destruct (decide (v = k)) as [->|Hne].
    - apply lookup_insert_eq.
    - rewrite lookup_insert_ne by assumption. exact H. }
  split; [split; [exact HF|]|..]; try (intros; assumption).
  intros. apply pres_downloadPackage_quiet.
  - split; intros; assumption.
  - intros; assumption.
Qed.

(** An invocation that is not in single mode and gets past the checks of
    the loaded package leaves the canonical path marked. *)
Lemma download_marks fuel path parent update insecure (s : State) :
  let p := lrPackage (loadResult parent path false (record (EvWalk path) s)) in
  isHard (Error p) = false -> Standard p = false ->
  marked (ImportPath p)
         (snd (download (S fuel) path parent update insecure false s)).
Proof.
  intros p Hhard Hstd. simpl. unfold downloadBody, walkLoaded.
  unfold bind at 1. unfold log, modify. cbv beta iota.
  unfold bind at 1. rewrite load1_eq. cbv beta iota.
  fold p. rewrite Hhard, Hstd.
  unfold bind at 1. unfold get. cbv beta iota.
  destruct (default false _) eqn:Hd.
  - simpl. unfold marked.
    destruct (downloadCache _ !! ImportPath p) as [[|]|] eqn:Hl;
      simpl in Hd; try discriminate. reflexivity.
  - unfold bind at 1. simpl when. unfold modify. cbv beta iota.
    match goal with
    | |- marked ?k (snd (bind ?c ?f ?s0)) =>
        assert (Hp : pres (marked k) (bind c f));
        [|apply Hp; unfold marked; simpl; apply lookup_insert_eq]
    end.
    pose proof (marked_stable (ImportPath p)) as HS.
    apply pres_bind.
    + apply pres_fetchOrRemember, HS.
    + intros [e|pkgs]; [apply pres_ret|].
      apply pres_forPkgs; [apply HS|].
      intros. apply pres_download, HS.
Qed.

(** A marked canonical path stops the walker right after the load. *)
Lemma download_marked fuel path parent update insecure single (s : State) :
  let r := loadResult parent path false (record (EvWalk path) s) in
  marked (ImportPath (lrPackage r)) s ->
  download (S fuel) path parent update insecure single s =
  (Ret (if isHard (Error (lrPackage r)) then Error (lrPackage r) else None),
   loaded r (record (EvWalk path) s)).
Proof.
  intros r Hm. simpl. unfold downloadBody, walkLoaded.
  unfold bind at 1. unfold log, modify. cbv beta iota.
  unfold bind at 1. rewrite load1_eq. cbv beta iota. fold r.
  destruct (isHard (Error (lrPackage r))); [reflexivity|].
  destruct (Standard (lrPackage r)); [reflexivity|].
  unfold bind at 1. unfold get. cbv beta iota.
  unfold marked in Hm.
  replace (downloadCache (loaded r (record (EvWalk path) s)))
    with (downloadCache s) by reflexivity.
  rewrite Hm. reflexivity.
Qed.

(** ** Soft and hard errors *)

Lemma traceFrom_record t e (s : State) :
  traceFrom t s -> traceFrom t (record e s).
Proof.
  intros [evs H]. exists (evs ++ [e]). unfold record; simpl.
  rewrite H, app_assoc. reflexivity.
Qed.

Lemma traceFrom_quiet t : Quiet (traceFrom t : State -> Prop).
Proof.
  split; intros; try assumption. apply traceFrom_record. assumption.
Qed.

Lemma traceFrom_stable t : Stable (traceFrom t : State -> Prop).
Proof.
  split; [split; [split; intros; assumption|]|..];
    try (intros; apply traceFrom_record; assumption).
  intros. apply pres_downloadPackage_quiet; [apply traceFrom_quiet|].
  intros; apply traceFrom_record; assumption.
Qed.

(** When a fetch is due the orchestrator is invoked. *)
Lemma fetchOrRemember_fetches t p path parent update insecure (s : State) :
  bool_decide (Dir p = "") || update = true ->
  trace s = t ->
  traceFrom (t ++ [EvFetch (ImportPath p)])
            (snd (fetchOrRemember p path parent update insecure s)).
Proof.
  intros Hcond Ht. pose proof (traceFrom_stable (t ++ [EvFetch (ImportPath p)]))
    as HS.
  pose proof (st_framed _ (st_steady _ HS)) as HF.
  unfold fetchOrRemember. rewrite Hcond.
  unfold bind at 1. unfold Push, modify. cbv beta iota.
  apply (leads_bind_post (fun s' : State => trace s' = t)); [| |exact Ht].
  - intros s' Hs'. apply downloadPackage_after_mark;
      [apply traceFrom_quiet|].
    exists []. unfold record; simpl. rewrite Hs', app_nil_r. reflexivity.
  - intros err.
    repeat first [ assumption | apply pres_Pop | apply pres_load1
                 | apply pres_modify; intros; apply st_packageCache;
                   assumption
                 | pres_step ].
Qed.

(** An invocation of the walker leaves its mark in the trace first. *)
Lemma download_logs I (HS : Stable I) fuel path parent update insecure single
    (s : State) :
  I (record (EvWalk path) s) ->
  I (snd (download (S fuel) path parent update insecure single s)).
Proof.
  simpl. unfold downloadBody. unfold bind at 1. unfold log, modify.
  cbv beta iota. generalize (record (EvWalk path) s). clear s.
  pose proof (st_framed _ (st_steady _ HS)) as HF.
  apply pres_bind; [apply pres_load1, HF|].
  intros q. destruct (isHard _); [apply pres_ret|].
  unfold walkLoaded.
  repeat first [ assumption | apply pres_fetchOrRemember, HS
               | apply pres_forPkgs; [apply HS|];
                 intros; apply pres_download, HS
               | apply pres_modify; intros;
                 apply (st_downloadCache _ HF); assumption
               | pres_step ].
Qed.

(** The loop over the imports walks its first import, unless that is the
    pseudo-import or vendored. *)
Lemma forPkgs_walks_first t fuel p update insecure imp rest (s : State) :
  Imports p = imp :: rest -> imp <> "C" ->
  FindVendor
    (match build.Imports (Build (Internal p)) !! 0 with
     | Some o => o
     | None => imp
     end) = None ->
  trace s = t ->
  traceFrom (t ++ [EvWalk imp])
            (snd (forPkgs (download (S fuel)) update insecure [p] s)).
Proof.
  intros Himp HC Hvend Ht.
  pose proof (traceFrom_stable (t ++ [EvWalk imp])) as HS.
  cbn [forPkgs]. rewrite Himp. cbn [forImports].
  rewrite bool_decide_eq_false_2 by exact HC. rewrite Hvend.
  unfold importTarget. rewrite Himp.
  rewrite bool_decide_eq_false_2 by (simpl; lia).
  apply (leads_bind_post (fun s' : State => trace s' = t)); [| |exact Ht].
  - apply leads_bind_post.
    + intros s' Hs'. apply download_logs; [exact HS|].
      exists []. unfold record; simpl. rewrite Hs', app_nil_r. reflexivity.
    + intros [e|]; [apply pres_ret|].
      apply pres_forImports; [apply HS|].
      intros. apply pres_download, HS.
  - intros [e|]; apply pres_ret.
Qed.

(** C4, as amended.  On the package as first loaded only a hard error
    stops [download], which returns it.  With a soft error or none, and
    the package neither standard nor marked, the walk goes on: when a fetch
    is due (the package has no directory, or update is set) the
    orchestrator is invoked; when none is due and the invocation is not in
    single mode, [download] is the loop over the imports of the package,
    and the first import (no pseudo-import, not vendored) is walked.  After a fetch that succeeds the package is loaded again, and
    then any error on it, soft or hard, ends the walk: [download] returns
    that error from the state the second load leaves, and has walked no
    import. *)
Theorem soft_error_stops_the_walk_only_after_a_fetch
    (fuel : nat) (path : string) (parent : option Package)
    (update insecure single : bool) (s : State) :
  let r := loadResult parent path false (record (EvWalk path) s) in
  let p := lrPackage r in
  let s0 := loaded r (record (EvWalk path) s) in
  let due := bool_decide (Dir p = "") || update in
  let s1 :=
    if single then s0
    else set_downloadCache (<[ImportPath p := true]> (downloadCache s0)) s0 in
  (isHard (Error p) = true ->
   download (S fuel) path parent update insecure single s
   = (Ret (Error p), s0))
  /\ (isHard (Error p) = false -> Standard p = false ->
      default false (downloadCache s0 !! ImportPath p) = false ->
      (due = true ->
       traceFrom (trace s ++ [EvWalk path; EvFetch (ImportPath p)])
         (snd (download (S fuel) path parent update insecure single s)))
      /\ (due = false -> single = false ->
          let s2 :=
            match fst (vcsFromDir (fs s1) (Dir p)
                         (build.SrcRoot (Build (Internal p)))) with
            | Some r0 =>
                set_repoPackages (<[ImportPath p := r0]> (repoPackages s1)) s1
            | None => s1
            end in
          download (S fuel) path parent update insecure single s
          = forPkgs (download fuel) update insecure [p] s2
          /\ (forall imp rest,
                Imports p = imp :: rest -> imp <> "C" ->
                FindVendor
                  (match build.Imports (Build (Internal p)) !! 0 with
                   | Some o => o
                   | None => imp
                   end) = None ->
                traceFrom (trace s ++ [EvWalk path; EvWalk imp])
                  (snd (download (S (S fuel)) path parent update insecure
                          single s))))
      /\ (forall s3 e,
            due = true ->
            downloadPackage p update insecure
              (set_stk (stk s1 ++ [ImportPath p]) s1) = (Ret None, s3) ->
            let s4 :=
              set_packageCache
                (ClearPackageCachePartial (packageCache s3) [ImportPath p])
                (set_stk (stk s1) s3) in
            let r' := loadResult parent (ImportPath p) false s4 in
            Error (lrPackage r') = Some e ->
            download (S fuel) path parent update insecure single s
            = (Ret (Some e), loaded r' s4))).
Proof.
  intros r p s0 due s1.
  assert (E : forall fuel',
            download (S fuel') path parent update insecure single s
            = (if isHard (Error p) then ret (Error p)
               else walkLoaded (download fuel') p parent update insecure
                               single) s0) by reflexivity.
  split.
  { intros H. rewrite E, H. reflexivity. }
  intros Hhard Hstd Hguard.
  assert (E' : forall fuel',
            download (S fuel') path parent update insecure single s
            = (do fetched <- fetchOrRemember p (ImportPath p) parent update
                               insecure;
               match fetched with
               | inl e => ret (Some e)
               | inr pkgs =>
                   if single then ret None
                   else forPkgs (download fuel') update insecure pkgs
               end) s1).
  { intros fuel'. rewrite E, Hhard. unfold walkLoaded. rewrite Hstd.
    unfold bind at 1. unfold get. cbv beta iota. rewrite Hguard.
    unfold s1. destruct single; reflexivity. }
  assert (Ht1 : trace s1 = trace s ++ [EvWalk path]).
  { unfold s1. destruct single; reflexivity. }
  split; [|split].
  - intros Hdue. rewrite E'.
    pose proof (traceFrom_stable
                  (trace s ++ [EvWalk path; EvFetch (ImportPath p)])) as HS.
    apply (leads_bind_post (fun s' : State => trace s' = trace s ++ [EvWalk path]));
      [| |exact Ht1].
    + intros s' Hs'.
      replace (trace s ++ [EvWalk path; EvFetch (ImportPath p)])
        with ((trace s ++ [EvWalk path]) ++ [EvFetch (ImportPath p)])
        by (rewrite <- app_assoc; reflexivity).
      apply fetchOrRemember_fetches; assumption.
    + intros [e|pkgs]; [apply pres_ret|].
      destruct single; [apply pres_ret|].
      apply pres_forPkgs; [apply HS|].
      intros. apply pres_download, HS.
  - intros Hdue Hsingle s2.
    assert (Ht2 : trace s2 = trace s ++ [EvWalk path]).
    { unfold s2. destruct (fst (vcsFromDir _ _ _)); exact Ht1. }
    assert (E2 : forall fuel',
              download (S fuel') path parent update insecure single s
              = forPkgs (download fuel') update insecure [p] s2).
    { intros fuel'. rewrite E'. rewrite Hsingle.
      unfold fetchOrRemember. fold due. rewrite Hdue.
      unfold bind at 1. unfold bind at 1. unfold get. cbv beta iota.
      unfold bind at 1. unfold s2.
      destruct (fst (vcsFromDir _ _ _)); reflexivity. }
    split; [apply E2|].
    intros imp rest Himp HC Hvend. rewrite E2.
    replace (trace s ++ [EvWalk path; EvWalk imp])
      with ((trace s ++ [EvWalk path]) ++ [EvWalk imp])
      by (rewrite <- app_assoc; reflexivity).
    apply forPkgs_walks_first with (rest := rest); assumption.
  - intros s3 e Hdue Hdp s4 r' Herr. rewrite E'.
    unfold fetchOrRemember. fold due. rewrite Hdue.
    unfold bind at 1. unfold bind at 1. unfold Push, modify.
    cbv beta iota. unfold bind at 1. rewrite Hdp. cbv beta iota.
    assert (Hstk : stk s3 = stk s1 ++ [ImportPath p]).
    { pose proof (pres_stack_downloadPackage (stk s1 ++ [ImportPath p])
                    p update insecure
                    (set_stk (stk s1 ++ [ImportPath p]) s1) eq_refl) as H.
      rewrite Hdp in H. exact H. }
    unfold bind at 1. unfold Pop. rewrite Hstk.
    destruct (stk s1 ++ [ImportPath p]) as [|x xs] eqn:Hl;
      [destruct (stk s1); discriminate|].
    rewrite <- Hl, removelast_last. cbv beta iota.
    unfold bind at 1. cbv beta iota.
    unfold bind at 1. rewrite load1_eq. cbv beta iota.
    change (packageCache (set_stk (stk s1) s3)) with (packageCache s3).
    fold s4. fold r'. rewrite Herr. reflexivity.
Qed.

(** ** The vendoring-aware lookup *)

Lemma bind_ext {A B} (c : M A) (k1 k2 : A -> M B) s :
  (forall a s', k1 a s' = k2 a s') -> bind c k1 s = bind c k2 s.
Proof.
  intros H. unfold bind. destruct (c s) as [[a|msg|] s1]; auto.
Qed.


Section Vendored.
Variable f : Package -> string -> string.




End Vendored.


(** ** The hint pass *)

(** [processPath] writes [hints] and never reads it: run from a state with
    other hints it gives the same result and, up to the hints, the same
    state. *)
Lemma forHintImports_hints (rec : string -> M (list string)) :
  (forall path s h, exists h',
      rec path (set_hints h s)
      = (fst (rec path s), set_hints h' (snd (rec path s)))) ->
  forall imports urls s h, exists h',
    forHintImports rec imports urls (set_hints h s)
    = (fst (forHintImports rec imports urls s),
       set_hints h' (snd (forHintImports rec imports urls s))).
Proof.
  intros Hrec. induction imports as [|imp rest IH]; intros urls s h; simpl.
  - exists h. reflexivity.
  - unfold bind. destruct (Hrec imp s h) as [h1 E1]. rewrite E1.
    destruct (rec imp s) as [[u|msg|] s1]; simpl.
    + apply IH.
    + exists h1. reflexivity.
    + exists h1. reflexivity.
Qed.

Lemma processPathBody_eq (rec : string -> M (list string)) path s :
  processPathBody rec path s =
  let s0 := record (EvProcess path) s in
  match packageCache s !! path with
  | None => (Panic nilDeref, s0)
  | Some q =>
      if Standard q then (Ret [], s0)
      else
        match forHintImports rec (Imports q) ∅ s0 with
        | (Ret urls, s1) =>
            let urlsArray :=
              elements (addOwnRepo s1 path (Some q) urls) in
            (Ret urlsArray, set_hints (<[path := urlsArray]> (hints s1)) s1)
        | (Panic msg, s1) => (Panic msg, s1)
        | (OutOfFuel, s1) => (OutOfFuel, s1)
        end
  end.
Proof.
  unfold processPathBody, bind, log, modify, get; simpl.
  destruct (packageCache s !! path) as [q|]; simpl; [|reflexivity].
  destruct (Standard q); [reflexivity|].
  destruct (forHintImports rec (Imports q) ∅ (record (EvProcess path) s))
    as [[urls|msg|] s1]; reflexivity.
Qed.

Lemma processPath_hints fuel : forall path s h, exists h',
  processPath fuel path (set_hints h s)
  = (fst (processPath fuel path s),
     set_hints h' (snd (processPath fuel path s))).
Proof.
  induction fuel as [|fuel IH]; intros path s h; simpl.
  - exists h. reflexivity.
  - rewrite !processPathBody_eq. cbv zeta.
    change (packageCache (set_hints h s)) with (packageCache s).
    change (record (EvProcess path) (set_hints h s))
      with (set_hints h (record (EvProcess path) s)).
    destruct (packageCache s !! path) as [q|]; [|exists h; reflexivity].
    destruct (Standard q); [exists h; reflexivity|].
    destruct (forHintImports_hints _ IH (Imports q) ∅
                (record (EvProcess path) s) h) as [h1 E1].
    rewrite E1.
    destruct (forHintImports (processPath fuel) (Imports q) ∅
                (record (EvProcess path) s))
      as [[urls|msg|] s1]; simpl; eexists; reflexivity.
Qed.

(** Where the paths reachable from [root] all have a package in the
    package cache and form no cycle, the hint pass returns from each of
    them. *)
Section Acyclic.
Variable pc : gmap string Package.
Variable rank : string -> nat.
Variable root : string.
Hypothesis Hcached : forall q, reachable pc root q -> is_Some (pc !! q).
Hypothesis Hrank : forall q p imp,
  reachable pc root q -> pc !! q = Some p -> Standard p = false ->
  In imp (Imports p) -> rank imp < rank q.

Lemma forHintImports_returns (rec : string -> M (list string)) imports :
  (forall imp s, In imp imports -> packageCache s = pc ->
     exists urls s', rec imp s = (Ret urls, s') /\ packageCache s' = pc) ->
  forall urls s, packageCache s = pc ->
    exists urls' s',
      forHintImports rec imports urls s = (Ret urls', s')
      /\ packageCache s' = pc.
Proof.
  induction imports as [|imp rest IH]; intros Hrec urls s Hs; simpl.
  - eauto.
  - unfold bind.
    destruct (Hrec imp s (or_introl eq_refl) Hs) as (u & s1 & E & Hs1).
    rewrite E. apply IH; [|exact Hs1].
    intros imp' s' Hin. apply Hrec. right; exact Hin.
Qed.

Lemma processPath_returns fuel : forall path s,
  reachable pc root path -> rank path < fuel -> packageCache s = pc ->
  exists urls s',
    processPath fuel path s = (Ret urls, s') /\ packageCache s' = pc.
Proof.
  induction fuel as [|fuel IH]; intros path s Hreach Hlt Hs; [lia|].
  destruct (Hcached path Hreach) as [q Hq].
  simpl. rewrite processPathBody_eq. cbv zeta. rewrite Hs, Hq.
  destruct (Standard q) eqn:Hstd;
    [eexists _, _; split; [reflexivity|exact Hs]|].
  destruct (forHintImports_returns (processPath fuel) (Imports q))
    with (urls := (∅ : gset string)) (s := record (EvProcess path) s)
    as (urls & s1 & E & Hs1).
  - intros imp s' Hin Hs'.
    pose proof (Hrank path q imp Hreach Hq Hstd Hin).
    apply IH; [|lia|exact Hs'].
    exact (reach_import pc root path q imp Hreach Hq Hstd Hin).
  - exact Hs.
  - rewrite E. eexists _, _; split; [reflexivity|exact Hs1].
Qed.

End Acyclic.

(** What one visit stores. *)
Lemma processPath_stores fuel path (s : State) q urls s' :
  packageCache s !! path = Some q ->
  processPath (S fuel) path s = (Ret urls, s') ->
  if Standard q then urls = [] /\ hints s' = hints s
  else hints s' !! path = Some urls.
Proof.
  intros Hq. simpl. rewrite processPathBody_eq. cbv zeta. rewrite Hq.
  destruct (Standard q).
  - intros E. inversion E; subst. split; reflexivity.
  - destruct (forHintImports _ _ _ _) as [[u|msg|] s1]; intros E;
      inversion E; subst.
    unfold set_hints; cbn [hints]. apply lookup_insert_eq.
Qed.

Lemma processPath_nil_package fuel path s :
  packageCache s !! path = None ->
  fst (processPath (S fuel) path s) = Panic nilDeref.
Proof.
  intros H. simpl. rewrite processPathBody_eq. cbv zeta. rewrite H.
  reflexivity.
Qed.

(** C5, as amended.  The hint pass is not memoized.  [processPath] never
    reads [hints]: its result and its trace of visits are the same whatever
    [hints] already holds, so a path reached through several ancestors is
    computed once for each.  A visit of a package that is not standard
    stores the hint set it returns under the path; a visit of a standard
    package returns the empty set and stores nothing.  Where the paths
    reachable from the root through the imports of the packages that are
    not standard all have a package in [packageCache] and form no cycle,
    the hint pass returns, with any budget above the rank of the root. *)
Theorem hint_pass_recomputes_and_returns_on_acyclic_graphs :
  (forall (fuel : nat) (path : string) (s : State)
          (h : gmap string (list string)),
     fst (processPath fuel path (set_hints h s))
     = fst (processPath fuel path s)
     /\ trace (snd (processPath fuel path (set_hints h s)))
        = trace (snd (processPath fuel path s)))
  /\ (forall (fuel : nat) (path : string) (s : State) (q : Package)
             (urls : list string) (s' : State),
        packageCache s !! path = Some q ->
        processPath (S fuel) path s = (Ret urls, s') ->
        if Standard q then urls = [] /\ hints s' = hints s
        else hints s' !! path = Some urls)
  /\ (forall (s : State) (rank : string -> nat) (path : string) (fuel : nat),
        (forall q, reachable (packageCache s) path q ->
                   is_Some (packageCache s !! q)) ->
        (forall q p imp,
           reachable (packageCache s) path q ->
           packageCache s !! q = Some p -> Standard p = false ->
           In imp (Imports p) -> rank imp < rank q) ->
        rank path < fuel ->
        exists urls, fst (processPath fuel path s) = Ret urls).
Proof.
  split; [|split].
  - intros fuel path s h.
    destruct (processPath_hints fuel path s h) as [h' E].
    rewrite E. split; reflexivity.
  - intros fuel path s q urls s'. apply processPath_stores.
  - intros s rank path fuel Hcached Hrank Hlt.
    destruct (processPath_returns (packageCache s) rank path Hcached Hrank
                fuel path s (reach_root _ _) Hlt eq_refl)
      as (urls & s' & E & _).
    exists urls. rewrite E. reflexivity.
Qed.

(** * Further properties *)

(** ** Predicates kept by the walk and by the hint pass *)

Section WalkKept.
Variable I : State -> Prop.
Hypothesis HI : Steady I.
Hypothesis Hwalk : forall s p, I s -> I (record (EvWalk p) s).
Let HF : Framed I := st_framed I HI.

Lemma walk_kept_download fuel : forall path parent update insecure single,
  pres I (download fuel path parent update insecure single).
Proof.
  induction fuel as [|fuel IH]; intros; simpl; [apply pres_outOfFuel|].
  unfold downloadBody, walkLoaded, log.
  repeat first [ assumption | apply pres_load1 | apply pres_fetchOrRemember
               | apply pres_forPkgs; assumption
               | apply pres_modify; intros;
                 first [ apply Hwalk | apply st_downloadCache ]; assumption
               | pres_step ].
Qed.

End WalkKept.

Section HintPassKept.
Variable I : State -> Prop.
Hypothesis Hhints : forall s v, I s -> I (set_hints v s).
Hypothesis Hprocess : forall s p, I s -> I (record (EvProcess p) s).

Lemma hint_pass_kept_imports (rec : string -> M (list string)) imports :
  (forall a, pres I (rec a)) ->
  forall urls, pres I (forHintImports rec imports urls).
Proof.
  intros Hrec. induction imports as [|imp rest IH]; intros urls; simpl.
  - apply pres_ret.
  - apply pres_bind; [apply Hrec | intros; apply IH].
Qed.

Lemma hint_pass_kept fuel : forall path, pres I (processPath fuel path).
Proof.
  induction fuel as [|fuel IH]; intros; simpl; [apply pres_outOfFuel|].
  unfold processPathBody, log.
  repeat first [ assumption | apply hint_pass_kept_imports; assumption
               | apply pres_modify; intros;
                 first [ apply Hprocess | apply Hhints ]; assumption
               | pres_step ].
Qed.

End HintPassKept.

(** ** The caches only grow *)

Lemma root_entry_stable d r :
  Stable (fun s : State => downloadRootCache s !! d = Some r).
Proof.
  split; [split; [split; intros s v H; exact H|]|..];
    try (intros; assumption).
  intros p update insecure s H.
  unfold downloadPackage, bind, log, modify; simpl.
  pose proof (locateRoot_frame p insecure
                (record (EvFetch (ImportPath p)) s)) as Hfr.
  assert (H1 : downloadRootCache
                 (snd (locateRoot p insecure
                         (record (EvFetch (ImportPath p)) s))) !! d
               = Some r) by (rewrite Hfr; exact H).
  clear Hfr.
  destruct (locateRoot p insecure (record (EvFetch (ImportPath p)) s))
    as [[[e|r1]|msg|] s1]; simpl in *; try exact H1.
  destruct (downloadRootCache s1 !! dir r1) eqn:Hd; simpl; [exact H1|].
  match goal with
  | |- context [checkoutOrUpdate r1 ?s3] =>
      destruct (checkoutOrUpdate_creates r1 s3 d) as [Hc _]
  end.
  rewrite Hc. unfold set_downloadRootCache, set_repoPackages.
  cbn [downloadRootCache].
  rewrite lookup_insert_ne; [exact H1|].
  intros Heq. rewrite Heq in Hd. congruence.
Qed.

Lemma stable_runCalls (I : State -> Prop) (HS : Stable I) calls :
  forall s, I s -> I (runCalls calls s).
Proof.
  induction calls as [|c calls IH]; intros s H; simpl; [exact H|].
  apply IH. destruct c; simpl.
  - apply (pres_Get _ HS), H.
  - apply (pres_download _ HS), H.
  - apply (st_fetch _ (st_steady _ HS)), H.
Qed.

(** X1. An entry of [downloadRootCache] is never removed and never
    overwritten: whatever calls follow, the directory stays recorded with
    the root that was recorded first. *)
Theorem recorded_root_is_never_replaced
    (calls : list Call) (s : State) (d : string) (r : repoRoot) :
  downloadRootCache s !! d = Some r ->
  downloadRootCache (runCalls calls s) !! d = Some r.
Proof. apply (stable_runCalls _ (root_entry_stable d r)). Qed.

Lemma rootsKeyedByDir_stable : Stable (rootsKeyedByDir : State -> Prop).
Proof.
  split; [split; [split; intros s v H; exact H|]|..];
    try (intros; assumption).
  intros p update insecure s H.
  unfold downloadPackage, bind, log, modify; simpl.
  pose proof (locateRoot_frame p insecure
                (record (EvFetch (ImportPath p)) s)) as Hfr.
  assert (H1 : rootsKeyedByDir
                 (snd (locateRoot p insecure
                         (record (EvFetch (ImportPath p)) s))))
    by (rewrite Hfr; exact H).
  clear Hfr.
  destruct (locateRoot p insecure (record (EvFetch (ImportPath p)) s))
    as [[[e|r1]|msg|] s1]; simpl in *; try exact H1.
  destruct (downloadRootCache s1 !! dir r1) eqn:Hd; simpl; [exact H1|].
  intros d r.
  match goal with
  | |- context [checkoutOrUpdate r1 ?s3] =>
      destruct (checkoutOrUpdate_creates r1 s3 d) as [Hc _]
  end.
  rewrite Hc. unfold set_downloadRootCache, set_repoPackages.
  cbn [downloadRootCache].
  destruct (decide (dir r1 = d)) as [Heq|Hne].
  - subst d. rewrite lookup_insert_eq. intros E; inversion E; reflexivity.
  - rewrite lookup_insert_ne by assumption. apply H1.
Qed.

(** X2. In every run that starts from [New], each root of
    [downloadRootCache] is stored under its own local directory. *)
Theorem roots_are_keyed_by_their_directory
    (calls : list Call) (fs0 : FS) (ext0 : Ext) (gopath goroot : string)
    (send0 : bool) (d : string) (r : repoRoot) :
  downloadRootCache (runCalls calls (New fs0 ext0 gopath goroot send0)) !! d
  = Some r ->
  dir r = d.
Proof.
  apply (stable_runCalls _ rootsKeyedByDir_stable calls).
  intros d' r' H. simpl in H. rewrite lookup_empty in H. discriminate.
Qed.

Lemma marksOnly_stable : Stable (marksOnly : State -> Prop).
Proof.
  assert (HF : Framed (marksOnly : State -> Prop)).
  { split; intros s v H; try exact H.
    intros k b. unfold set_downloadCache; cbn [downloadCache].
    destruct (decide (v = k)) as [->|Hne].
    - rewrite lookup_insert_eq. congruence.
    - rewrite lookup_insert_ne by assumption. apply H. }
  split; [split; [exact HF|]|..]; try (intros; assumption).
  intros. apply pres_downloadPackage_quiet.
  - split; intros; assumption.
  - intros; assumption.
Qed.

(** X3. [downloadCache] is a set of marks that only grows: in every run
    from [New] no entry is [false], and a path that is marked stays marked
    whatever calls follow. *)
Theorem download_cache_marks_only_grow
    (calls : list Call) (fs0 : FS) (ext0 : Ext) (gopath goroot : string)
    (send0 : bool) (s : State) (k : string) :
  (forall b,
     downloadCache (runCalls calls (New fs0 ext0 gopath goroot send0)) !! k
     = Some b -> b = true)
  /\ (marked k s -> marked k (runCalls calls s)).
Proof.
  split.
  - intros b. revert k b.
    apply (stable_runCalls _ marksOnly_stable calls).
    intros k b H. simpl in H. rewrite lookup_empty in H. discriminate.
  - apply (stable_runCalls _ (marked_stable k)).
Qed.

(** ** The orchestrator *)

(** The checkout writes the filesystem, the collaborators' state and the
    trace, and nothing else. *)
Lemma pres_checkoutOrUpdate_maps (I : State -> Prop) r :
  (forall s v, I s -> I (set_fs v s)) ->
  (forall s v, I s -> I (set_ext v s)) ->
  (forall s e, I s -> I (record e s)) ->
  pres I (checkoutOrUpdate r).
Proof.
  intros Hfs Hext Hrec. unfold checkoutOrUpdate.
  repeat first [ apply pres_panic_bind
               | apply pres_log; intros; apply Hrec; assumption
               | apply pres_modify; intros;
                 repeat first [ apply Hfs | apply Hext ]; assumption
               | pres_step ].
Qed.

(** X4. Once [downloadPackage] has resolved the repository root, it
    remembers it under the import path of the package in [repoPackages]
    and has its directory in [downloadRootCache] when it ends, whatever the
    outcome of the checkout: nil, an error or the panic. *)
Theorem resolved_root_is_recorded_whatever_follows
    (p : Package) (update insecure : bool) (s s1 : State) (r : repoRoot) :
  locateRoot p insecure (record (EvFetch (ImportPath p)) s)
    = (Ret (inr r), s1) ->
  let s' := snd (downloadPackage p update insecure s) in
  repoPackages s' !! ImportPath p = Some r
  /\ is_Some (downloadRootCache s' !! dir r).
Proof.
  intros Hloc s'. subst s'.
  unfold downloadPackage, bind, log, modify; simpl.
  rewrite Hloc; simpl.
  destruct (downloadRootCache s1 !! dir r) eqn:Hd; simpl.
  - rewrite lookup_insert_eq, Hd. eauto.
  - match goal with
    | |- context [checkoutOrUpdate r ?s3] =>
        apply (pres_checkoutOrUpdate_maps
                 (fun s4 => repoPackages s4 !! ImportPath p = Some r
                            /\ is_Some (downloadRootCache s4 !! dir r))
                 r) with (s := s3)
    end; try (intros; assumption).
    simpl. rewrite !lookup_insert_eq. eauto.
Qed.



Lemma checkoutOrUpdate_create_needs_absence r s d :
  countEv (isCreate d) (trace (snd (checkoutOrUpdate r s)))
  <> countEv (isCreate d) (trace s) ->
  dir r = d /\ exists_ r = false /\ Stat (fs s) d = false.
Proof.
  unfold checkoutOrUpdate, bind, get, log, modify, when, ret, panic.
  branches;
    repeat match goal with
           | H : (_, _) = (_, _) |- _ => inversion H; clear H; subst
           end;
    unfold record; simpl; rewrite ?countEv_app; simpl;
    rewrite ?countEv_app; simpl; intros Hne; try (exfalso; lia);
    destruct (bool_decide (dir r = d)) eqn:Hbd; try (exfalso; lia);
    apply bool_decide_eq_true_1 in Hbd; subst d;
    repeat match goal with
           | H : negb _ = true |- _ => apply negb_true_iff in H
           end; auto.
Qed.

(** X6. [downloadPackage] checks a repository out only into a directory
    that the filesystem does not have and that this [Getter] has not
    handled before: when a call adds a checkout of [d], [Stat] on [d]
    failed at the call and [d] was not in [downloadRootCache]. *)
Theorem checkout_only_into_a_new_directory
    (p : Package) (update insecure : bool) (s : State) (d : string) :
  countEv (isCreate d) (trace (snd (downloadPackage p update insecure s)))
  <> countEv (isCreate d) (trace s) ->
  Stat (fs s) d = false /\ downloadRootCache s !! d = None.
Proof.
  unfold downloadPackage, bind, log, modify; simpl.
  pose proof (locateRoot_frame p insecure
                (record (EvFetch (ImportPath p)) s)) as Hfr.
  destruct (locateRoot p insecure (record (EvFetch (ImportPath p)) s))
    as [[[e1|r1]|msg|] s1] eqn:Hloc; simpl in *;
    try (rewrite Hfr; simpl; rewrite countEv_app; simpl; intros; lia).
  destruct (downloadRootCache s1 !! dir r1) eqn:Hd; simpl;
    try (rewrite Hfr; simpl; rewrite countEv_app; simpl; intros; lia).
  intros Hne.
  match type of Hne with
  | context [checkoutOrUpdate r1 ?s3] =>
      destruct (checkoutOrUpdate_create_needs_absence r1 s3 d)
        as (Hdir & _ & Hstat)
  end.
  - intros Heq. apply Hne. rewrite Heq. simpl.
    rewrite Hfr; simpl. rewrite countEv_app; simpl. lia.
  - subst d. simpl in Hstat. rewrite Hfr in Hstat, Hd. simpl in Hstat, Hd.
    auto.
Qed.

Lemma notified_checkoutOrUpdate r :
  pres (notifiedOncePerCheckout : State -> Prop) (checkoutOrUpdate r).
Proof.
  intros s. unfold notifiedOncePerCheckout.
  unfold checkoutOrUpdate, bind, get, log, modify, when, ret, panic.
  branches;
    repeat match goal with
           | H : (_, _) = (_, _) |- _ => inversion H; clear H; subst
           end;
    unfold record; simpl; rewrite ?countEv_app; simpl;
    rewrite ?countEv_app; simpl;
    repeat match goal with
           | H : send _ = _ |- _ => simpl in H; try rewrite H
           end; intros; try congruence; lia.
Qed.

Lemma notified_stable : Stable (notifiedOncePerCheckout : State -> Prop).
Proof.
  assert (Hev : forall (s : State) e,
            isSend e = false -> isAnyCreate e = false ->
            notifiedOncePerCheckout s ->
            notifiedOncePerCheckout (record e s)).
  { intros s e H1 H2 H. unfold notifiedOncePerCheckout in *.
    rewrite !countEv_record, H1, H2. simpl. destruct (send s); lia. }
  split; [split; [split; intros s v H; exact H|]|..];
    try (intros; apply Hev; [reflexivity | reflexivity | assumption]).
  intros p update insecure s H.
  unfold downloadPackage, bind, log, modify; simpl.
  pose proof (locateRoot_frame p insecure
                (record (EvFetch (ImportPath p)) s)) as Hfr.
  assert (H1 : notifiedOncePerCheckout
                 (snd (locateRoot p insecure
                         (record (EvFetch (ImportPath p)) s)))).
  { rewrite Hfr. apply (Hev s (EvFetch (ImportPath p)) eq_refl eq_refl H). }
  clear Hfr.
  destruct (locateRoot p insecure (record (EvFetch (ImportPath p)) s))
    as [[[e|r1]|msg|] s1]; simpl in *; try exact H1.
  destruct (downloadRootCache s1 !! dir r1) eqn:Hd; simpl; [exact H1|].
  apply notified_checkoutOrUpdate. exact H1.
Qed.

(** X7. In every run from [New] the progress sink, when there is one, has
    received one "downloading" notification for each checkout; without a
    sink nothing is sent. *)
Theorem one_notification_for_each_checkout
    (calls : list Call) (fs0 : FS) (ext0 : Ext) (gopath goroot : string)
    (send0 : bool) :
  let s := runCalls calls (New fs0 ext0 gopath goroot send0) in
  countEv isSend (trace s)
  = if send0 then countEv isAnyCreate (trace s) else 0.
Proof.
  intros s.
  assert (Hsend : send s = send0).
  { subst s.
    apply (stable_runCalls (fun s' : State => send s' = send0)); auto.
    split; [split; [split; intros s v H; exact H|]|..];
      try (intros; assumption).
    intros p update insecure s H.
    apply (downloadPackage_after_mark
             (fun s' : State => send s' = send0)); [|exact H].
    split; intros; assumption. }
  assert (H : notifiedOncePerCheckout s).
  { subst s. apply (stable_runCalls _ notified_stable).
    unfold notifiedOncePerCheckout; simpl. destruct send0; reflexivity. }
  unfold notifiedOncePerCheckout in H. rewrite Hsend in H. exact H.
Qed.

(** ** The hint pass reads the caches and writes the hints *)

Lemma sameButHints_kept (s0 : State) fuel path :
  pres (sameButHints s0) (processPath fuel path).
Proof.
  apply hint_pass_kept.
  - intros s v H. destruct s, s0. unfold sameButHints in *; simpl in *.
    inversion H; subst. reflexivity.
  - intros s q H. destruct s, s0. unfold sameButHints, record in *;
      simpl in *. inversion H; subst. reflexivity.
Qed.

Lemma sameButHints_refl (s : State) : sameButHints s s.
Proof. destruct s; reflexivity. Qed.

(** X8. The hint pass reads the [Getter] and writes nothing but the hints:
    after [processPath], whatever its result, the package cache, the three
    download caches, the filesystem and the import stack are what they
    were. *)
Theorem hint_pass_writes_only_the_hints
    (fuel : nat) (path : string) (s : State) :
  let s' := snd (processPath fuel path s) in
  s' = set_trace (trace s') (set_hints (hints s') s).
Proof. apply (sameButHints_kept s fuel path s), sameButHints_refl. Qed.

Lemma forHintImports_same (rec : string -> M (list string)) :
  (forall path s h t, exists h' t',
      rec path (set_trace t (set_hints h s))
      = (fst (rec path s), set_trace t' (set_hints h' (snd (rec path s))))) ->
  forall imports urls s h t, exists h' t',
    forHintImports rec imports urls (set_trace t (set_hints h s))
    = (fst (forHintImports rec imports urls s),
       set_trace t' (set_hints h' (snd (forHintImports rec imports urls s)))).
Proof.
  intros Hrec. induction imports as [|imp rest IH]; intros urls s h t; simpl.
  - exists h, t. reflexivity.
  - unfold bind. destruct (Hrec imp s h t) as (h1 & t1 & E1). rewrite E1.
    destruct (rec imp s) as [[u|msg|] s1]; simpl.
    + apply IH.
    + exists h1, t1. reflexivity.
    + exists h1, t1. reflexivity.
Qed.

Lemma processPath_same fuel : forall path s h t, exists h' t',
  processPath fuel path (set_trace t (set_hints h s))
  = (fst (processPath fuel path s),
     set_trace t' (set_hints h' (snd (processPath fuel path s)))).
Proof.
  induction fuel as [|fuel IH]; intros path s h t; simpl.
  - exists h, t. reflexivity.
  - rewrite !processPathBody_eq. cbv zeta.
    change (packageCache (set_trace t (set_hints h s)))
      with (packageCache s).
    change (record (EvProcess path) (set_trace t (set_hints h s)))
      with (set_trace (t ++ [EvProcess path])
              (set_hints h (record (EvProcess path) s))).
    destruct (packageCache s !! path) as [q|];
      [|exists h, (t ++ [EvProcess path]); reflexivity].
    destruct (Standard q);
      [exists h, (t ++ [EvProcess path]); reflexivity|].
    destruct (forHintImports_same _ IH (Imports q) ∅
                (record (EvProcess path) s) h (t ++ [EvProcess path]))
      as (h1 & t1 & E1).
    rewrite E1.
    destruct (forHintImports (processPath fuel) (Imports q) ∅
                (record (EvProcess path) s))
      as [[urls|msg|] s1]; simpl; eexists _, _; reflexivity.
Qed.

(** The answer of [processPath] is the same from two states that differ
    in the hints and in the trace only. *)
Lemma processPath_answer fuel path (s s' : State) :
  sameButHints s s' ->
  fst (processPath fuel path s') = fst (processPath fuel path s).
Proof.
  intros H. rewrite H.
  destruct (processPath_same fuel path s (hints s') (trace s'))
    as (h' & t' & E).
  rewrite E. reflexivity.
Qed.

Lemma forHintImports_collects fuel imports :
  forall (urls : gset string) (s : State) urls' s',
    forHintImports (processPath fuel) imports urls s = (Ret urls', s') ->
    urls ⊆ urls'
    /\ forall imp, In imp imports ->
         exists sub, fst (processPath fuel imp s) = Ret sub
                     /\ forall u, u ∈ sub -> u ∈ urls'.
Proof.
  induction imports as [|a rest IH]; intros urls s urls' s' H; simpl in H.
  - inversion H; subst. split; [reflexivity | intros imp []].
  - unfold bind in H.
    destruct (processPath fuel a s) as [[sub|msg|] s1] eqn:E;
      try discriminate.
    destruct (IH _ _ _ _ H) as [Hsub Hall].
    split; [intros x Hx; apply Hsub, elem_of_union; left; exact Hx|].
    intros imp [Heq|Hin].
    + subst imp. exists sub. split; [rewrite E; reflexivity|].
      intros u Hu. apply Hsub, elem_of_union. right.
      apply elem_of_list_to_set. exact Hu.
    + destruct (Hall imp Hin) as (sub' & Hs & Hin').
      exists sub'. split; [|exact Hin'].
      rewrite <- Hs. symmetry. apply processPath_answer.
      pose proof (sameButHints_kept s fuel a s (sameButHints_refl s)) as Hf.
      rewrite E in Hf. exact Hf.
Qed.

Lemma addOwnRepo_grows (s : State) path p (urls : gset string) :
  urls ⊆ addOwnRepo s path p urls.
Proof.
  unfold addOwnRepo.
  destruct (repoPackages s !! path); [set_solver|].
  destruct p as [q|]; [|reflexivity].
  destruct (vcsFromDir _ _ _).1; set_solver.
Qed.

(** X9. When [processPath] returns for a package that is in the package
    cache and is not standard, the list it returns is what it has stored in
    [hints] under the path, has no duplicate, holds the URL of the
    repository remembered for the path in [repoPackages], and holds every
    URL that [processPath] answers for each import of the package: hints
    are closed under imports. *)
Theorem hints_hold_own_repository_and_those_of_imports
    (fuel : nat) (path : string) (s s' : State) (q : Package)
    (urls : list string) :
  processPath (S fuel) path s = (Ret urls, s') ->
  packageCache s !! path = Some q ->
  Standard q = false ->
  hints s' !! path = Some urls
  /\ NoDup urls
  /\ (forall r, repoPackages s !! path = Some r -> repo r ∈ urls)
  /\ (forall imp, In imp (Imports q) ->
        exists sub, fst (processPath fuel imp s) = Ret sub
                    /\ forall u, u ∈ sub -> u ∈ urls).
Proof.
  intros H Hq Hstd. simpl in H. rewrite processPathBody_eq in H.
  cbv zeta in H. rewrite Hq, Hstd in H.
  destruct (forHintImports (processPath fuel) (Imports q) ∅
              (record (EvProcess path) s)) as [[urls0|msg|] s1] eqn:E;
    try discriminate.
  inversion H; subst; clear H.
  assert (Hf : sameButHints (record (EvProcess path) s) s1).
  { pose proof (hint_pass_kept_imports
                  (sameButHints (record (EvProcess path) s))
                  (processPath fuel) (Imports q)
                  (sameButHints_kept _ fuel) ∅
                  (record (EvProcess path) s) (sameButHints_refl _)) as Hk.
    rewrite E in Hk. exact Hk. }
  destruct (forHintImports_collects fuel (Imports q) _ _ _ _ E)
    as [_ Hall].
  split; [simpl; apply lookup_insert_eq|].
  split; [apply NoDup_elements|].
  split.
  - intros r Hr. apply elem_of_elements. unfold addOwnRepo.
    rewrite Hf. simpl. rewrite Hr. set_solver.
  - intros imp Hin. destruct (Hall imp Hin) as (sub & Hs & Hsub).
    exists sub. split.
    + rewrite <- Hs. symmetry. apply processPath_answer.
      destruct s; reflexivity.
    + intros u Hu. apply elem_of_elements.
      apply addOwnRepo_grows. auto.
Qed.

(** ** [Get] and the hand-over of the hints *)

Lemma setHints_count_steady n :
  Steady (fun s : State => countEv isSetHints (trace s) = n).
Proof.
  apply (count_steady isSetHints (fun c => c = n)).
  - intros e; destruct e; simpl; congruence.
  - reflexivity.
Qed.

Lemma Get_eq fuel path update insecure single (s : State) :
  Get fuel path update insecure single s =
  match download fuel path None update insecure single (set_stk [] s) with
  | (Ret (Some e), s1) => (Ret (Some e), s1)
  | (Ret None, s1) =>
      if single then (Ret None, s1)
      else
        match processPath fuel path (set_hints ∅ s1) with
        | (Ret _, s2) => (Ret None, record (EvSetHints (hints s2)) s2)
        | (Panic msg, s2) => (Panic msg, s2)
        | (OutOfFuel, s2) => (OutOfFuel, s2)
        end
  | (Panic msg, s1) => (Panic msg, s1)
  | (OutOfFuel, s1) => (OutOfFuel, s1)
  end.
Proof.
  unfold Get, bind, modify, get, log; simpl.
  destruct (download fuel path None update insecure single (set_stk [] s))
    as [[[e|]|msg|] s1]; try reflexivity.
  destruct single; [reflexivity|].
  destruct (processPath fuel path (set_hints ∅ s1)) as [[urls|msg|] s2];
    reflexivity.
Qed.

(** X10. [Get] hands the hints to the cache client at most once: exactly
    once when it returns nil and is not in single mode, and then the map it
    hands over is the map [hints] as the hint pass left it; never in single
    mode, never when the walk or the hint pass fails. *)
Theorem get_hands_the_hints_over_once
    (fuel : nat) (path : string) (update insecure single : bool)
    (s : State) :
  let out := Get fuel path update insecure single s in
  countEv isSetHints (trace (snd out))
  = countEv isSetHints (trace s)
    + match fst out with
      | Ret None => if single then 0 else 1
      | _ => 0
      end
  /\ (fst out = Ret None -> single = false ->
      exists t, trace (snd out) = t ++ [EvSetHints (hints (snd out))]).
Proof.
  intros out. subst out. rewrite Get_eq.
  pose proof (walk_kept_download _
                (setHints_count_steady (countEv isSetHints (trace s)))
                (fun s0 p H => eq_trans (count_record_other isSetHints
                                           (EvWalk p) s0 eq_refl) H)
                fuel path None update insecure single (set_stk [] s)
                eq_refl) as Hw.
  destruct (download fuel path None update insecure single (set_stk [] s))
    as [[[e|]|msg|] s1]; simpl in Hw; simpl;
    try (split; [lia | intros; discriminate]).
  destruct single; simpl; [split; [lia | intros; discriminate]|].
  pose proof (hint_pass_kept
                (fun s0 : State => countEv isSetHints (trace s0)
                                   = countEv isSetHints (trace s))
                (fun s0 v H => H)
                (fun s0 p H => eq_trans (count_record_other isSetHints
                                           (EvProcess p) s0 eq_refl) H)
                fuel path (set_hints ∅ s1) Hw) as Hp.
  destruct (processPath fuel path (set_hints ∅ s1)) as [[urls|msg|] s2];
    simpl in Hp; simpl;
    try (split; [lia | intros; discriminate]).
  unfold record; simpl. rewrite countEv_app; simpl. split; [lia|].
  intros _ _. eexists. reflexivity.
Qed.

(** X11. [Get] runs the hint pass on the path as the caller spelled it:
    when the walk has succeeded, outside single mode, and the package cache
    has no package under that spelling, [Get] panics on the nil package
    and hands no hints over. *)
Theorem get_panics_without_package_under_the_given_path
    (fuel : nat) (path : string) (update insecure : bool) (s s1 : State) :
  download fuel path None update insecure false (set_stk [] s)
    = (Ret None, s1) ->
  packageCache s1 !! path = None ->
  fst (Get fuel path update insecure false s) = Panic nilDeref.
Proof.
  intros Hd Hnone.
  destruct fuel as [|fuel]; [discriminate|].
  rewrite Get_eq, Hd.
  pose proof (processPath_nil_package fuel path (set_hints ∅ s1) Hnone)
    as Hp.
  destruct (processPath (S fuel) path (set_hints ∅ s1)) as [res s2].
  simpl in Hp. subst res. reflexivity.
Qed.

(** ** The walker *)

Section NeverC.
Variable n : nat.
Let I : State -> Prop := fun s => countEv (isWalkOf "C") (trace s) = n.

Lemma neverC_steady : Steady I.
Proof.
  apply (count_steady (isWalkOf "C") (fun c => c = n)).
  - intros e; destruct e; simpl; congruence.
  - reflexivity.
Qed.

Lemma neverC_forImports rec p update insecure :
  (forall path parent a b c,
     path <> "C" -> pres I (rec path parent a b c)) ->
  forall imports i,
    i + length imports <= length (Imports p) ->
    pres I (forImports rec p update insecure i imports).
Proof.
  intros Hrec. pose proof (st_framed _ neverC_steady) as HF.
  induction imports as [|path rest IH]; intros i Hlen; simpl in *.
  - apply pres_ret.
  - destruct (bool_decide (path = "C")) eqn:HC; [apply IH; lia|].
    apply bool_decide_eq_false_1 in HC.
    destruct (FindVendor _) as [j|].
    + repeat first [ assumption | apply pres_Push | apply pres_Pop
                   | pres_step ].
    + unfold importTarget. rewrite bool_decide_eq_false_2 by lia.
      apply pres_bind; [apply Hrec; assumption|].
      intros [e|]; [apply pres_ret | apply IH; lia].
Qed.

Lemma neverC_forPkgs rec update insecure pkgs :
  (forall path parent a b c,
     path <> "C" -> pres I (rec path parent a b c)) ->
  pres I (forPkgs rec update insecure pkgs).
Proof.
  intros Hrec. induction pkgs as [|p rest IH]; simpl; [apply pres_ret|].
  apply pres_bind; [apply neverC_forImports; [assumption|lia]|].
  intros [e|]; [apply pres_ret | apply IH].
Qed.

Lemma neverC_download fuel : forall path parent update insecure single,
  path <> "C" -> pres I (download fuel path parent update insecure single).
Proof.
  pose proof neverC_steady as HI. pose proof (st_framed _ HI) as HF.
  induction fuel as [|fuel IH]; intros path parent update insecure single HC;
    simpl; [apply pres_outOfFuel|].
  unfold downloadBody, walkLoaded, log.
  apply pres_bind.
  { apply pres_modify. intros s H. unfold I in *.
    rewrite count_record_other; [exact H|].
    simpl. apply bool_decide_eq_false_2. exact HC. }
  intros _.
  repeat first [ assumption | apply pres_load1 | apply pres_fetchOrRemember
               | apply neverC_forPkgs; exact IH
               | apply pres_modify; intros; apply st_downloadCache;
                 assumption
               | pres_step ].
Qed.

End NeverC.

(** X12. The pseudo-import "C" is never walked: unless [download] is
    called on "C" itself, no invocation of the walk, at any depth, is on
    the path "C". *)
Theorem pseudo_import_C_is_never_walked
    (fuel : nat) (path : string) (parent : option Package)
    (update insecure single : bool) (s : State) :
  path <> "C" ->
  countEv (isWalkOf "C")
          (trace (snd (download fuel path parent update insecure single s)))
  = countEv (isWalkOf "C") (trace s).
Proof.
  intros HC.
  apply (neverC_download (countEv (isWalkOf "C") (trace s)) fuel path
           parent update insecure single HC s eq_refl).
Qed.

(** X13. An import is refused when the vendoring resolver finds a vendor
    segment in its build-declared spelling: the loop over the imports
    returns the error "must be imported as" followed by the path after the
    segment, with a copy of the import stack extended by the path, leaves
    the state as it found it (the pushed entry is popped), and walks
    neither this import nor any later one.  The offset is taken in the
    build-declared spelling and applied to the listed path: when it lies
    beyond the end of the listed path the slice panics, with the entry
    still on the stack. *)
Theorem vendored_import_is_refused
    (rec : string -> option Package -> bool -> bool -> bool ->
           M (option PackageError))
    (p : Package) (update insecure : bool) (i j : nat)
    (path : string) (rest : list string) (s : State) :
  path <> "C" ->
  FindVendor (match build.Imports (Build (Internal p)) !! i with
              | Some o => o
              | None => path
              end) = Some j ->
  forImports rec p update insecure i (path :: rest) s
  = if bool_decide (j + 7 <= String.length path)
    then (Ret (Some {| ErrStack := stk s ++ [path];
                       Err := "must be imported as " +:+
                              String.substring
                                (j + 7) (String.length path - (j + 7)) path;
                       Hard := false |}),
          s)
    else (Panic sliceBounds, set_stk (stk s ++ [path]) s).
Proof.
  intros HC Hv. simpl.
  rewrite bool_decide_eq_false_2 by exact HC. rewrite Hv.
  unfold bind, Push, Copy, Pop, modify, ret, panic; simpl.
  destruct (bool_decide (j + 7 <= String.length path)); [|reflexivity].
  destruct (stk s ++ [path]) as [|x xs] eqn:El;
    [destruct (stk s); discriminate|].
  unfold set_stk; cbn [stk]. rewrite <- El, removelast_last.
  f_equal. destruct s; reflexivity.
Qed.

(** X14. When the orchestrator fails, the walker wraps its error: the
    error it returns is soft, carries the text of the orchestrator's error
    and a copy of the import stack with the canonical path of the package
    on top, and the stack itself is back to what it was. *)
Theorem fetch_error_carries_the_import_stack
    (p : Package) (path : string) (parent : option Package)
    (update insecure : bool) (s s1 : State) (e : fetchError) :
  bool_decide (Dir p = "") || update = true ->
  downloadPackage p update insecure (set_stk (stk s ++ [path]) s)
    = (Ret (Some e), s1) ->
  fetchOrRemember p path parent update insecure s
  = (Ret (inl {| ErrStack := stk s ++ [path]; Err := errText e;
                 Hard := false |}),
     set_stk (stk s) s1).
Proof.
  intros Hcond Hd.
  pose proof (pres_stack_downloadPackage (stk s ++ [path]) p update insecure
                (set_stk (stk s ++ [path]) s) eq_refl) as Hstk.
  rewrite Hd in Hstk. unfold stackIs in Hstk. simpl in Hstk.
  unfold fetchOrRemember. rewrite Hcond.
  unfold bind, Push, modify. cbv beta iota. rewrite Hd. cbv beta iota.
  unfold Copy, Pop, ret. rewrite Hstk.
  destruct (stk s ++ [path]) as [|x xs] eqn:El;
    [destruct (stk s); discriminate|].
  rewrite <- El, removelast_last. reflexivity.
Qed.

(** * The [downloadCache] guard at every later invocation *)

Lemma bind_ext_pres (I : State -> Prop) {A B} (c : M A) (k1 k2 : A -> M B) s :
  pres I c -> I s ->
  (forall a s', I s' -> k1 a s' = k2 a s') ->
  bind c k1 s = bind c k2 s.
Proof.
  intros Hc Hs Hk. unfold bind. specialize (Hc s Hs).
  destruct (c s) as [[a|msg|] s1]; simpl in Hc; auto.
Qed.

Section Revisits.
Variable k : string.
Variables rec1 rec2 : string -> option Package -> bool -> bool -> bool ->
                      M (option PackageError).
Hypothesis Hagree : forall a b c d e (s : State),
  marked k s -> rec1 a b c d e s = rec2 a b c d e s.
Hypothesis Hrec : forall a b c d e, pres (marked k) (rec2 a b c d e).

Lemma forImports_agree p update insecure imports :
  forall i s, marked k s ->
    forImports rec1 p update insecure i imports s
    = forImports rec2 p update insecure i imports s.
Proof.
  induction imports as [|path rest IH]; intros i s Hs; [reflexivity|].
  simpl. destruct (bool_decide (path = "C")); [apply IH; exact Hs|].
  destruct (FindVendor _) as [j|]; [reflexivity|].
  unfold bind. rewrite Hagree by exact Hs.
  pose proof (Hrec (importTarget p i path) (Some p) update insecure false
                s Hs) as Hs1.
  destruct (rec2 (importTarget p i path) (Some p) update insecure false s)
    as [[[e|]|msg|] s1]; try reflexivity.
  apply IH. exact Hs1.
Qed.

Lemma forPkgs_agree update insecure pkgs :
  forall s, marked k s ->
    forPkgs rec1 update insecure pkgs s = forPkgs rec2 update insecure pkgs s.
Proof.
  pose proof (marked_stable k) as HS.
  induction pkgs as [|p rest IH]; intros s Hs; [reflexivity|].
  simpl. unfold bind. rewrite forImports_agree by exact Hs.
  pose proof (pres_forImports _ (st_steady _ HS) rec2 p update insecure
                (Imports p) Hrec 0 s Hs) as Hs1.
  destruct (forImports rec2 p update insecure 0 (Imports p) s)
    as [[[e|]|msg|] s1]; try reflexivity.
  apply IH. exact Hs1.
Qed.

(** The recursive calls of an invocation that is not in single mode are
    made where the canonical path of its package is marked. *)
Lemma walkLoaded_agree p parent update insecure (s : State) :
  k = ImportPath p ->
  walkLoaded rec1 p parent update insecure false s
  = walkLoaded rec2 p parent update insecure false s.
Proof.
  intros Hk. pose proof (marked_stable k) as HS.
  unfold walkLoaded. destruct (Standard p); [reflexivity|].
  apply bind_ext. intros s0 s1.
  destruct (default false _); [reflexivity|].
  unfold bind at 1 3. simpl when. unfold modify. cbv beta iota.
  apply (bind_ext_pres (marked k)).
  - apply pres_fetchOrRemember, HS.
  - unfold marked; simpl. rewrite Hk. apply lookup_insert_eq.
  - intros [e|pkgs] s2 Hs2; [reflexivity|].
    apply forPkgs_agree. exact Hs2.
Qed.

(** So are those of any invocation entered where the path is marked. *)
Lemma downloadBody_agree path parent update insecure single (s : State) :
  marked k s ->
  downloadBody rec1 path parent update insecure single s
  = downloadBody rec2 path parent update insecure single s.
Proof.
  intros Hs. pose proof (marked_stable k) as HS.
  pose proof (st_framed _ (st_steady _ HS)) as HF.
  unfold downloadBody.
  apply (bind_ext_pres (marked k)); [|exact Hs|].
  { apply pres_log. intros; apply (st_walk _ HS); assumption. }
  intros _ s0 Hs0.
  apply (bind_ext_pres (marked k)); [|exact Hs0|].
  { apply pres_load1, HF. }
  intros p s1 Hs1. destruct (isHard _); [reflexivity|].
  unfold walkLoaded. destruct (Standard p); [reflexivity|].
  apply (bind_ext_pres (marked k)); [apply pres_get|exact Hs1|].
  intros s2 s3 Hs3. destruct (default false _); [reflexivity|].
  apply (bind_ext_pres (marked k)); [|exact Hs3|].
  { apply pres_when, pres_modify. intros; apply (st_downloadCache _ HF).
    assumption. }
  intros _ s4 Hs4.
  apply (bind_ext_pres (marked k)); [|exact Hs4|].
  { apply pres_fetchOrRemember, HS. }
  intros [e|pkgs] s5 Hs5; [reflexivity|].
  destruct single; [reflexivity|].
  apply forPkgs_agree. exact Hs5.
Qed.

End Revisits.

(** Where the path is marked, the walker whose invocations are all made
    where the path is marked is the walker. *)
Lemma downloadWhereMarked_eq k fuel :
  forall path parent update insecure single (s : State),
    marked k s ->
    downloadWhereMarked k fuel path parent update insecure single s
    = download fuel path parent update insecure single s.
Proof.
  induction fuel as [|fuel IH]; intros path parent update insecure single s Hs;
    simpl; unfold onlyWhereMarked;
    rewrite bool_decide_eq_true_2 by exact Hs; [reflexivity|].
  apply (downloadBody_agree k); [exact IH| |exact Hs].
  intros. apply pres_download, marked_stable.
Qed.

(** Single mode writes no mark. *)
Lemma single_mode_keeps_downloadCache fuel path parent update insecure
    (s : State) :
  downloadCache (snd (download (S fuel) path parent update insecure true s))
  = downloadCache s.
Proof.
  assert (H : pres (fun s' : State => downloadCache s' = downloadCache s)
                   (download (S fuel) path parent update insecure true)).
  { simpl. unfold downloadBody, walkLoaded, fetchOrRemember, load1, Push,
      log. cbn [when negb].
    repeat first
      [ apply pres_modify; intros ? Hk; exact Hk
      | apply pres_downloadPackage_quiet;
        [ split; intros; assumption | intros; assumption ]
      | intros s' Hk; unfold Pop; destruct (stk s'); exact Hk
      | pres_step ]. }
  apply H. reflexivity.
Qed.

(** C2, as amended.  The [downloadCache] guard is keyed on the canonical
    [ImportPath] of the loaded package, not on the spelling of the
    argument.  An invocation of [download] that is not in single mode and
    has loaded a package that is neither in hard error nor standard marks
    that path before it recurses: every invocation below it, at every
    depth, is made where the path is marked, and the mark stays through
    whatever calls follow.
    Wherever the path that the loader resolves for the argument is marked,
    in the course of that walk or after any later calls, an invocation
    stops right after its load: it returns nil (or the hard error of the
    package it loaded), invokes no orchestrator and writes no cache.  An
    invocation in single mode leaves [downloadCache] as it was. *)
Theorem canonical_path_guards_later_walks
    (fuel1 : nat) (path1 : string) (parent1 : option Package)
    (update1 insecure1 : bool) (s : State) (calls : list Call)
    (fuel2 : nat) (path2 : string) (parent2 : option Package)
    (update2 insecure2 single2 : bool) :
  let p1 :=
    lrPackage (loadResult parent1 path1 false (record (EvWalk path1) s)) in
  let s1 := snd (download (S fuel1) path1 parent1 update1 insecure1 false s) in
  (isHard (Error p1) = false -> Standard p1 = false ->
     (let s2 := runCalls calls s1 in
      let r2 := loadResult parent2 path2 false (record (EvWalk path2) s2) in
      ImportPath (lrPackage r2) = ImportPath p1 ->
      download (S fuel2) path2 parent2 update2 insecure2 single2 s2 =
      (Ret (if isHard (Error (lrPackage r2)) then Error (lrPackage r2)
            else None),
       loaded r2 (record (EvWalk path2) s2)))
     /\ download (S fuel1) path1 parent1 update1 insecure1 false s
        = downloadBody (downloadWhereMarked (ImportPath p1) fuel1)
            path1 parent1 update1 insecure1 false s)
  /\ (forall s' : State,
        let r := loadResult parent2 path2 false (record (EvWalk path2) s') in
        marked (ImportPath (lrPackage r)) s' ->
        download (S fuel2) path2 parent2 update2 insecure2 single2 s' =
        (Ret (if isHard (Error (lrPackage r)) then Error (lrPackage r)
              else None),
         loaded r (record (EvWalk path2) s')))
  /\ downloadCache
       (snd (download (S fuel2) path2 parent2 update2 insecure2 true s))
     = downloadCache s.
Proof.
  intros p1 s1. split; [|split].
  - intros Hhard Hstd. split.
    + intros s2 r2 Hsame. apply download_marked. fold r2. rewrite Hsame.
      apply (stable_runCalls _ (marked_stable (ImportPath p1))).
      apply download_marks; assumption.
    + simpl. unfold downloadBody.
      unfold bind, log, modify. cbv beta iota.
      rewrite load1_eq. cbv beta iota. fold p1. rewrite Hhard.
      symmetry. apply (walkLoaded_agree (ImportPath p1)); [| |reflexivity].
      * intros. apply downloadWhereMarked_eq. assumption.
      * intros. apply pres_download, marked_stable.
  - intros s' r Hm. apply download_marked. exact Hm.
  - apply single_mode_keeps_downloadCache.
Qed.

End Invariants.

(** * Examples on the table-driven world *)

Lemma demo_loader_keeps_stack : loaderKeepsStack (K:=demoK).
Proof.
  intros fs0 ext0 cache stk0 path srcDir parent useVendor. reflexivity.
Qed.

(** C1 at work: example.com/foo was checked out by a first walk; the
    orchestrator, called for it again with update set, resolves to the
    recorded root directory and returns nil at the guard. *)
Lemma checkout_at_most_once_per_root_witness :
  is_Some (downloadRootCache afterSingleFoo !! "/gopath/src/example.com/foo")
  /\ fst (downloadPackage (K:=demoK) fooFetched true false afterSingleFoo)
     = Ret None
  /\ countEv (isCreate "/gopath/src/example.com/foo")
       (trace (snd (downloadPackage (K:=demoK) fooFetched true false
                      afterSingleFoo))) = 1.
Proof.
  assert (Hsome : is_Some (downloadRootCache afterSingleFoo
                             !! "/gopath/src/example.com/foo")).
  { vm_compute. eexists. reflexivity. }
  split; [exact Hsome|]. split.
  - refine (proj1 (proj2 (proj2 (checkout_at_most_once_per_root (K:=demoK)
              [] ∅ tt "/gopath" "/goroot" true "/gopath/src/example.com/foo"
              fooFetched true false afterSingleFoo))
              {| repo := "https://example.com/foo";
                 root := "example.com/foo";
                 dir := "/gopath/src/example.com/foo";
                 exists_ := true |}
              (snd (locateRoot (K:=demoK) fooFetched false
                      (record (EvFetch (ImportPath fooFetched))
                              afterSingleFoo)))
              _ Hsome)).
    vm_compute. reflexivity.
  - vm_compute. reflexivity.
Defined.

(** C6 at work: http.org/x resolves to a repository over plain http. *)
Lemma insecure_error_precedes_any_mutation_witness :
  fst (downloadPackage (K:=demoK) (demoLoad ∅ "http.org/x") false false
         demoNew)
  = Ret (Some (ErrInsecure "http://http.org/x"))
  /\ fs (snd (downloadPackage (K:=demoK) (demoLoad ∅ "http.org/x") false
               false demoNew)) = fs demoNew.
Proof.
  assert (H : fst (downloadPackage (K:=demoK) (demoLoad ∅ "http.org/x")
                     false false demoNew)
              = Ret (Some (ErrInsecure "http://http.org/x"))).
  { vm_compute. reflexivity. }
  split; [exact H|].
  exact (proj1 (proj2 (proj2
    (insecure_error_precedes_any_mutation (K:=demoK)
       (demoLoad ∅ "http.org/x") false false demoNew "http://http.org/x"
       H)))).
Defined.

(** C7 at work: an update of example.com/foo on a fresh [Getter] whose
    filesystem holds its checkout. *)
Lemma existing_checkout_aborts_before_update_witness :
  fst (locateRoot (K:=demoK) fooFetched false
         (record (EvFetch (ImportPath fooFetched)) demoWithFoo))
  = Ret (inr {| repo := "https://example.com/foo";
                root := "example.com/foo";
                dir := "/gopath/src/example.com/foo";
                exists_ := true |})
  /\ fst (downloadPackage (K:=demoK) fooFetched true false demoWithFoo)
     = Panic "root exists".
Proof.
  split; [vm_compute; reflexivity|].
  refine (proj2 (proj2 (proj2
            (existing_checkout_aborts_before_update (K:=demoK)
               fooFetched true false demoWithFoo)))
            {| repo := "https://example.com/foo";
               root := "example.com/foo";
               dir := "/gopath/src/example.com/foo";
               exists_ := true |}
            (snd (locateRoot (K:=demoK) fooFetched false
                    (record (EvFetch (ImportPath fooFetched)) demoWithFoo)))
            _ eq_refl).
  vm_compute. reflexivity.
Defined.

(** C8 at work: the walk that fetches example.com/foo. *)
Lemma download_restores_import_stack_witness :
  download (K:=demoK) 5 "./foo" None false false true demoNew
  = (Ret None, afterSingleFoo)
  /\ stk afterSingleFoo = stk demoNew.
Proof.
  assert (H : download (K:=demoK) 5 "./foo" None false false true demoNew
              = (Ret None, afterSingleFoo)).
  { vm_compute. reflexivity. }
  split; [exact H|].
  exact (download_restores_import_stack (K:=demoK) demo_loader_keeps_stack
           5 "./foo" None false false true demoNew afterSingleFoo None H).
Defined.

(** C2 as amended, at work: "./foo" is walked with its dependencies; a
    walk of http.org/x and a [Get] of app follow; "example.com/foo" is then
    walked with update set, and stops at the guard. *)
Lemma canonical_path_guards_later_walks_witness :
  let calls := [CallDownload 5 "http.org/x" None false true false;
                CallGet 5 "app" false false false] in
  let s2 := runCalls (K:=demoK) calls afterFoo in
  ImportPath (lrPackage (loadResult (K:=demoK) None "example.com/foo" false
                           (record (EvWalk "example.com/foo") s2)))
  = ImportPath (lrPackage (loadResult (K:=demoK) None "./foo" false
                             (record (EvWalk "./foo") demoNew)))
  /\ fst (download (K:=demoK) 5 "example.com/foo" None true false false s2)
     = Ret None
  /\ countEv isFetch
       (trace (snd (download (K:=demoK) 5 "example.com/foo" None true false
                      false s2)))
     = countEv isFetch (trace s2).
Proof.
  intros calls s2.
  assert (Hsame :
    ImportPath (lrPackage (loadResult (K:=demoK) None "example.com/foo"
                             false (record (EvWalk "example.com/foo") s2)))
    = ImportPath (lrPackage (loadResult (K:=demoK) None "./foo" false
                               (record (EvWalk "./foo") demoNew)))).
  { vm_compute. reflexivity. }
  split; [exact Hsame|]. unfold s2, afterFoo.
  rewrite (proj1 (proj1 (canonical_path_guards_later_walks (K:=demoK)
                    4 "./foo" None false false demoNew calls
                    4 "example.com/foo" None true false false)
                  eq_refl eq_refl) Hsame).
  vm_compute. split; reflexivity.
Defined.

(** C2 as stated fails: "./foo" is walked in single mode, which leaves
    example.com/foo unmarked; the walk of "example.com/foo" with update set
    then passes the guard and calls the orchestrator a second time. *)
Lemma single_mode_leaves_the_guard_open :
  ImportPath (lrPackage (loadResult (K:=demoK) None "./foo" false demoNew))
  = "example.com/foo"
  /\ ImportPath (lrPackage (loadResult (K:=demoK) None "example.com/foo"
                              false afterSingleFoo))
     = "example.com/foo"
  /\ countEv isFetch (trace afterSingleFoo) = 1
  /\ downloadCache afterSingleFoo !! "example.com/foo" = None
  /\ countEv isFetch
       (trace (snd (download (K:=demoK) 5 "example.com/foo" None true false
                      false afterSingleFoo))) = 2.
Proof. vm_compute. repeat split; reflexivity. Qed.



(** C4 as amended, at work.  Where example.com/soft is checked out, the
    loader reports a soft error on it and no fetch is due: its import
    example.com/foo is walked.  Where it is missing, the loader reports
    that as a soft error: the orchestrator is invoked, and the soft error
    of the package loaded again is returned. *)
Lemma soft_error_stops_the_walk_only_after_a_fetch_witness :
  Error (lrPackage (loadResult (K:=demoK) None "example.com/soft" false
                      (record (EvWalk "example.com/soft") demoWithSoft)))
  = Some {| ErrStack := []; Err := "no buildable Go source files";
            Hard := false |}
  /\ traceFrom [EvWalk "example.com/soft"; EvWalk "example.com/foo"]
       (snd (download (K:=demoK) 5 "example.com/soft" None false false false
               demoWithSoft))
  /\ traceFrom [EvWalk "example.com/soft"; EvFetch "example.com/soft"]
       (snd (download (K:=demoK) 5 "example.com/soft" None false false false
               demoNew))
  /\ fst (download (K:=demoK) 5 "example.com/soft" None false false false
            demoNew)
     = Ret (Some {| ErrStack := []; Err := "no buildable Go source files";
                    Hard := false |}).
Proof.
  split; [reflexivity|].
  destruct (soft_error_stops_the_walk_only_after_a_fetch (K:=demoK)
              3 "example.com/soft" None false false false demoWithSoft)
    as [_ H1].
  specialize (H1 eq_refl eq_refl eq_refl). destruct H1 as (_ & H1 & _).
  destruct (soft_error_stops_the_walk_only_after_a_fetch (K:=demoK)
              4 "example.com/soft" None false false false demoNew)
    as [_ H2].
  specialize (H2 eq_refl eq_refl eq_refl). destruct H2 as (H2 & _ & H3).
  split; [|split].
  - refine (proj2 (H1 eq_refl eq_refl) "example.com/foo" [] eq_refl _
              eq_refl).
    discriminate.
  - exact (H2 eq_refl).
  - erewrite H3; [reflexivity | reflexivity | vm_compute; reflexivity
                 | vm_compute; reflexivity].
Defined.

(** C4 as stated fails: example.com/soft is fetched; loaded again it
    carries a soft error and imports example.com/foo; [download] returns
    the soft error and has walked no import. *)
Lemma soft_error_after_fetch_stops_the_walk :
  let out :=
    download (K:=demoK) 5 "example.com/soft" None false false false demoNew in
  let reloaded := demoLoad (fs (snd out)) "example.com/soft" in
  Error reloaded
  = Some {| ErrStack := []; Err := "no buildable Go source files";
            Hard := false |}
  /\ Imports reloaded = ["example.com/foo"]
  /\ fst out = Ret (Error reloaded)
  /\ countEv isWalk (trace (snd out)) = 1.
Proof. vm_compute. repeat split; reflexivity. Qed.

(** C5 as amended, at work: the diamond, with rank 2 for top, 1 for left
    and right, 0 for base, next to the package cgo, whose import "C" has no
    package and which top does not reach. *)
Lemma hint_pass_recomputes_and_returns_on_acyclic_graphs_witness :
  packageCache diamondAndCgoState !! "C" = None
  /\ In "C" (Imports (demoLoad ∅ "cgo"))
  /\ exists urls,
       fst (processPath (K:=demoK) 3 "top" diamondAndCgoState) = Ret urls.
Proof.
  split; [reflexivity|]. split; [left; reflexivity|].
  assert (Hreach : forall q,
            reachable (packageCache diamondAndCgoState) "top" q ->
            q = "top" \/ q = "left" \/ q = "right" \/ q = "base").
  { intros q H. induction H as [ | q0 p imp Hr IH Hq Hstd Hin ];
      [left; reflexivity|].
    destruct IH as [-> | [-> | [-> | ->]]]; vm_compute in Hq; inversion Hq;
      subst p; vm_compute in Hin; intuition auto. }
  refine (proj2 (proj2 (hint_pass_recomputes_and_returns_on_acyclic_graphs
                          (K:=demoK)))
            diamondAndCgoState diamondRank "top" 3 _ _ _).
  - intros q H.
    destruct (Hreach q H) as [-> | [-> | [-> | ->]]]; vm_compute; eexists;
      reflexivity.
  - intros q p imp H Hq Hstd Hin.
    destruct (Hreach q H) as [-> | [-> | [-> | ->]]]; vm_compute in Hq;
      inversion Hq; subst p; vm_compute in Hin;
      repeat (destruct Hin as [<-|Hin]; [vm_compute; lia|]);
      destruct Hin.
  - vm_compute. lia.
Defined.

(** C5 as stated fails: in the diamond the hint set of base is computed
    twice, once through left and once through right. *)
Lemma diamond_base_is_computed_twice :
  fst (Get (K:=demoK) 5 "top" false false false demoNew) = Ret None
  /\ countEv (isProcess "base")
       (trace (snd (Get (K:=demoK) 5 "top" false false false demoNew))) = 2.
Proof. vm_compute. split; reflexivity. Qed.

(** And on a cycle the hint pass uses up any budget. *)
Lemma hint_pass_cycle_uses_up_any_budget :
  forall fuel, fst (processPath (K:=demoK) fuel "ping" cycleState) = OutOfFuel.
Proof.
  assert (Eping : packageCache cycleState !! "ping"
                  = Some (localPackage "ping" ["pong"] ["pong"]))
    by (vm_compute; reflexivity).
  assert (Epong : packageCache cycleState !! "pong"
                  = Some (localPackage "pong" ["ping"] ["ping"]))
    by (vm_compute; reflexivity).
  assert (H : forall fuel s, packageCache s = packageCache cycleState ->
            fst (processPath (K:=demoK) fuel "ping" s) = OutOfFuel
            /\ fst (processPath (K:=demoK) fuel "pong" s) = OutOfFuel).
  { induction fuel as [|fuel IH]; intros s Hs; [split; reflexivity|].
    simpl. rewrite !processPathBody_eq. cbv zeta. rewrite Hs, Eping, Epong.
    simpl. unfold bind.
    destruct (IH (record (EvProcess "ping") s) Hs) as [_ Hpong].
    destruct (IH (record (EvProcess "pong") s) Hs) as [Hping _].
    destruct (processPath fuel "pong" (record (EvProcess "ping") s))
      as [[u|msg|] s1]; simpl in Hpong; try discriminate.
    destruct (processPath fuel "ping" (record (EvProcess "pong") s))
      as [[u|msg|] s2]; simpl in Hping; try discriminate.
    split; reflexivity. }
  intros fuel. apply H. reflexivity.
Qed.

(** C10.  The package cgo is on disk and imports "C".  The walker skips
    "C", so the loader never puts it in the package cache; the hint pass
    follows the import, finds no package and reads [p.Standard] of the nil
    package: [Get] panics.  The claim says the hint pass completes. *)
Theorem hint_pass_panics_on_an_import_without_package :
  fst (download (K:=demoK) 5 "cgo" None false false false demoNew) = Ret None
  /\ packageCache
       (snd (download (K:=demoK) 5 "cgo" None false false false demoNew))
     !! "C" = None
  /\ fst (Get (K:=demoK) 5 "cgo" false false false demoNew) = Panic nilDeref.
Proof. vm_compute. repeat split; reflexivity. Qed.

(** * Examples of the further properties *)

(** X1 at work: the root of example.com/foo, recorded by the single-mode
    walk, after a later [Get] with update set. *)
Lemma recorded_root_is_never_replaced_witness :
  downloadRootCache afterSingleFoo !! "/gopath/src/example.com/foo"
  = Some {| repo := "https://example.com/foo"; root := "example.com/foo";
            dir := "/gopath/src/example.com/foo"; exists_ := false |}
  /\ downloadRootCache
       (runCalls (K:=demoK) [CallGet 5 "example.com/foo" true false false]
                 afterSingleFoo)
     !! "/gopath/src/example.com/foo"
     = Some {| repo := "https://example.com/foo"; root := "example.com/foo";
               dir := "/gopath/src/example.com/foo"; exists_ := false |}.
Proof.
  assert (H : downloadRootCache afterSingleFoo
                !! "/gopath/src/example.com/foo"
              = Some {| repo := "https://example.com/foo";
                        root := "example.com/foo";
                        dir := "/gopath/src/example.com/foo";
                        exists_ := false |})
    by (vm_compute; reflexivity).
  split; [exact H|].
  exact (recorded_root_is_never_replaced (K:=demoK)
           [CallGet 5 "example.com/foo" true false false] afterSingleFoo
           "/gopath/src/example.com/foo" _ H).
Defined.

(** X2 at work: the root recorded by the walk of "./foo". *)
Lemma roots_are_keyed_by_their_directory_witness :
  downloadRootCache
    (runCalls (K:=demoK) [CallDownload 5 "./foo" None false false true]
              (New ∅ tt "/gopath" "/goroot" true))
    !! "/gopath/src/example.com/foo"
  = Some {| repo := "https://example.com/foo"; root := "example.com/foo";
            dir := "/gopath/src/example.com/foo"; exists_ := false |}
  /\ dir {| repo := "https://example.com/foo"; root := "example.com/foo";
            dir := "/gopath/src/example.com/foo"; exists_ := false |}
     = "/gopath/src/example.com/foo".
Proof.
  assert (H : downloadRootCache
                (runCalls (K:=demoK)
                   [CallDownload 5 "./foo" None false false true]
                   (New ∅ tt "/gopath" "/goroot" true))
                !! "/gopath/src/example.com/foo"
              = Some {| repo := "https://example.com/foo";
                        root := "example.com/foo";
                        dir := "/gopath/src/example.com/foo";
                        exists_ := false |})
    by (vm_compute; reflexivity).
  split; [exact H|].
  exact (roots_are_keyed_by_their_directory (K:=demoK)
           [CallDownload 5 "./foo" None false false true] ∅ tt
           "/gopath" "/goroot" true "/gopath/src/example.com/foo" _ H).
Defined.

(** X3 at work: example.com/foo, marked by the walk of "./foo", after a
    later [Get] of the package app. *)
Lemma download_cache_marks_only_grow_witness :
  marked "example.com/foo" afterFoo
  /\ marked "example.com/foo"
       (runCalls (K:=demoK) [CallGet 5 "app" false false false] afterFoo).
Proof.
  assert (H : marked "example.com/foo" afterFoo)
    by (vm_compute; reflexivity).
  split; [exact H|].
  exact (proj2 (download_cache_marks_only_grow (K:=demoK)
                  [CallGet 5 "app" false false false] ∅ tt "/gopath"
                  "/goroot" true afterFoo "example.com/foo") H).
Defined.

(** X4 at work: the update of example.com/foo on a fresh [Getter] panics
    at the checkout-or-update decision; the root is recorded all the
    same. *)
Lemma resolved_root_is_recorded_whatever_follows_witness :
  fst (downloadPackage (K:=demoK) fooFetched true false demoWithFoo)
  = Panic "root exists"
  /\ is_Some (downloadRootCache
                (snd (downloadPackage (K:=demoK) fooFetched true false
                        demoWithFoo))
              !! "/gopath/src/example.com/foo").
Proof.
  split; [vm_compute; reflexivity|].
  refine (proj2 (resolved_root_is_recorded_whatever_follows (K:=demoK)
            fooFetched true false demoWithFoo
            (snd (locateRoot (K:=demoK) fooFetched false
                    (record (EvFetch (ImportPath fooFetched)) demoWithFoo)))
            {| repo := "https://example.com/foo";
               root := "example.com/foo";
               dir := "/gopath/src/example.com/foo";
               exists_ := true |} _)).
  vm_compute. reflexivity.
Defined.


(** X6 at work: the first checkout of example.com/foo. *)
Lemma checkout_only_into_a_new_directory_witness :
  countEv (isCreate "/gopath/src/example.com/foo")
    (trace (snd (downloadPackage (K:=demoK) (demoLoad ∅ "example.com/foo")
                   false false demoNew))) = 1
  /\ Stat (Collab:=demoK) (fs demoNew) "/gopath/src/example.com/foo" = false.
Proof.
  assert (H : countEv (isCreate "/gopath/src/example.com/foo")
                (trace (snd (downloadPackage (K:=demoK)
                               (demoLoad ∅ "example.com/foo") false false
                               demoNew))) = 1)
    by (vm_compute; reflexivity).
  split; [exact H|].
  refine (proj1 (checkout_only_into_a_new_directory (K:=demoK)
                   (demoLoad ∅ "example.com/foo") false false demoNew
                   "/gopath/src/example.com/foo" _)).
  rewrite H. vm_compute. discriminate.
Defined.

(** X9 at work: the hints of example.com/foo after it has been fetched
    hold the URL of its repository. *)
Lemma hints_hold_own_repository_and_those_of_imports_witness :
  packageCache afterFoo !! "example.com/foo" = Some fooFetched
  /\ hints (snd (processPath (K:=demoK) 2 "example.com/foo" afterFoo))
     !! "example.com/foo" = Some ["https://example.com/foo"].
Proof.
  assert (Hq : packageCache afterFoo !! "example.com/foo" = Some fooFetched)
    by (vm_compute; reflexivity).
  split; [exact Hq|].
  refine (proj1 (hints_hold_own_repository_and_those_of_imports (K:=demoK)
                   1 "example.com/foo" afterFoo
                   (snd (processPath (K:=demoK) 2 "example.com/foo"
                           afterFoo))
                   fooFetched ["https://example.com/foo"] _ Hq eq_refl)).
  vm_compute. reflexivity.
Defined.

(** X10 at work: [Get] of the diamond hands its hints over once. *)
Lemma get_hands_the_hints_over_once_witness :
  fst (Get (K:=demoK) 5 "top" false false false demoNew) = Ret None
  /\ exists t,
       trace (snd (Get (K:=demoK) 5 "top" false false false demoNew))
       = t ++ [EvSetHints
                 (hints (snd (Get (K:=demoK) 5 "top" false false false
                                demoNew)))].
Proof.
  assert (H : fst (Get (K:=demoK) 5 "top" false false false demoNew)
              = Ret None) by (vm_compute; reflexivity).
  split; [exact H|].
  exact (proj2 (get_hands_the_hints_over_once (K:=demoK)
                  5 "top" false false false demoNew) H eq_refl).
Defined.

(** X11 at work: "./foo" is fetched as example.com/foo; the package cache
    has nothing under "./foo". *)
Lemma get_panics_without_package_under_the_given_path_witness :
  packageCache afterFoo !! "./foo" = None
  /\ fst (Get (K:=demoK) 5 "./foo" false false false demoNew)
     = Panic nilDeref.
Proof.
  assert (Hnone : packageCache afterFoo !! "./foo" = None)
    by (vm_compute; reflexivity).
  split; [exact Hnone|].
  refine (get_panics_without_package_under_the_given_path (K:=demoK)
            5 "./foo" false false demoNew afterFoo _ Hnone).
  vm_compute. reflexivity.
Defined.

(** X12 at work: the walk of the package cgo, which imports "C". *)
Lemma pseudo_import_C_is_never_walked_witness :
  Imports (demoLoad ∅ "cgo") = ["C"]
  /\ countEv (isWalkOf "C")
       (trace (snd (download (K:=demoK) 5 "cgo" None false false false
                      demoNew))) = 0.
Proof.
  split; [reflexivity|].
  refine (pseudo_import_C_is_never_walked (K:=demoK)
            5 "cgo" None false false false demoNew _).
  discriminate.
Defined.

(** X13 at work: app imports app/vendor/dep under its full vendor path. *)
Lemma vendored_import_is_refused_witness :
  forImports (K:=vendorK) (fun _ _ _ _ _ => ret None) vendoringApp
             false false 0 ["app/vendor/dep"] demoNew
  = (Ret (Some {| ErrStack := ["app/vendor/dep"];
                  Err := "must be imported as dep"; Hard := false |}),
     demoNew).
Proof.
  rewrite (vendored_import_is_refused (K:=vendorK)
             (fun _ _ _ _ _ => ret None) vendoringApp false false 0 4
             "app/vendor/dep" [] demoNew);
    [reflexivity | discriminate | reflexivity].
Defined.

(** X14 at work: http.org/x fails at the security gate. *)
Lemma fetch_error_carries_the_import_stack_witness :
  fst (fetchOrRemember (K:=demoK) (demoLoad ∅ "http.org/x") "http.org/x"
         None false false demoNew)
  = Ret (inl {| ErrStack := ["http.org/x"];
                Err := "cannot download, http://http.org/x uses insecure protocol";
                Hard := false |}).
Proof.
  rewrite (fetch_error_carries_the_import_stack (K:=demoK)
             (demoLoad ∅ "http.org/x") "http.org/x" None false false
             demoNew
             (snd (downloadPackage (K:=demoK) (demoLoad ∅ "http.org/x")
                     false false
                     (set_stk (stk demoNew ++ ["http.org/x"]) demoNew)))
             (ErrInsecure "http://http.org/x")).
  - reflexivity.
  - reflexivity.
  - vm_compute. reflexivity.
Defined.
